(** * pimd-mooc, notebook 4-rpmd: correlation functions and velocity Verlet

    A shallow embedding of the numerical cells of [4-rpmd.ipynb]:
    - cell 12/13/17/27: [m], [hbar], [beta], [Ei], [qij], [Cqq_std], [Cqq_kubo];
    - cell 46/48/67:    [f], the velocity-Verlet loop filling [traj_ens] and
                        the reversed run filling [inv_traj_ens];
    - cell 62:          [boltzweight].

    Python floats are modelled twice from one generic definition: exactly,
    as Stdlib's real numbers, and bit for bit, as binary64 primitive floats.
    The correlation functions use [exp] and complex numbers and live in the
    exact model only. *)

From Stdlib Require Import Floats.
From Stdlib Require Import ZArith List Bool Reals Lra Lia Psatz.
Import ListNotations.

Set Warnings "-inexact-float,-abstract-large-number".

(** ** Python exceptions as an error monad *)

Inductive pyerr : Set :=
| IndexError
| ValueError
| NameError
| OverflowError
| ZeroDivisionError.

Inductive result (A : Type) : Type :=
| Ok (a : A)
| Raise (e : pyerr).

Arguments Ok {A} a.
Arguments Raise {A} e.

Definition bind {A B : Type} (r : result A) (k : A -> result B) : result B :=
  match r with
  | Ok a => k a
  | Raise e => Raise e
  end.

Declare Scope py_scope.
Delimit Scope py_scope with py.
Notation "x <- r ;; k" := (bind r (fun x => k))
  (at level 61, r at next level, right associativity) : py_scope.

(** [range(n)] and [range(lo, hi)] over Python integers. *)
Definition range2 (lo hi : Z) : list Z :=
  map (fun k => (lo + Z.of_nat k)%Z) (seq 0 (Z.to_nat (hi - lo))).

Definition range (n : Z) : list Z := range2 0 n.

(** [l[k]] for a non-negative index and [l[-1]]. *)
Definition index {A : Type} (l : list A) (k : nat) : result A :=
  match nth_error l k with
  | Some x => Ok x
  | None => Raise IndexError
  end.

Definition index_last {A : Type} (l : list A) : result A :=
  fold_left (fun _ x => Ok x) l (Raise IndexError).

(** [l[::-1]] *)
Definition reversed {A : Type} (l : list A) : list A := rev_append l [].

(** ** The scalar arithmetic the notebook uses, as an interface

    [nsqrt] is [np.sqrt]; [of_int] is the implicit int-to-float conversion
    of a literal such as the [2] of [dt / 2]; [to_int] is Python's [int(x)],
    truncation towards zero; [is_zero] tells when [x / y] raises
    [ZeroDivisionError]. *)

Class PyNum (F : Type) : Type := {
  nadd : F -> F -> F;
  nmul : F -> F -> F;
  ndiv : F -> F -> F;
  nneg : F -> F;
  nsqrt : F -> F;
  of_int : Z -> F;
  to_int : F -> result Z;
  is_zero : F -> bool
}.

Declare Scope num_scope.
Delimit Scope num_scope with num.
Infix "+" := nadd : num_scope.
Infix "*" := nmul : num_scope.
Infix "/" := ndiv : num_scope.
Notation "- x" := (nneg x) : num_scope.

(** Exact model: real numbers. [int(x)] truncates the exact value toward
    zero and never raises, so a quotient such as [0.3 / 0.1] gives 3 here
    and 2 in binary64; statements that depend on the step count therefore
    take [steps_of tmax dt = Ok N] as their premise, in either model. *)
Definition Rtrunc (x : R) : Z :=
  if Rle_dec 0 x then Int_part x else (- Int_part (- x))%Z.

#[export] Instance PyNum_R : PyNum R := {|
  nadd := Rplus;
  nmul := Rmult;
  ndiv := Rdiv;
  nneg := Ropp;
  nsqrt := sqrt;
  of_int := IZR;
  to_int := fun x => Ok (Rtrunc x);
  is_zero := fun x => if Req_dec_T x 0 then true else false
|}.

(** Machine model: IEEE 754 binary64, round to nearest even. [of_int]
    converts through 63-bit integers; it is exact for the small literals
    the notebook converts (the 2 of [dt / 2]). *)
Definition float_to_int (x : float) : result Z :=
  match Prim2SF x with
  | S754_zero _ => Ok 0%Z
  | S754_infinity _ => Raise OverflowError
  | S754_nan => Raise ValueError
  | S754_finite s mant e =>
      let v := if (0 <=? e)%Z then (Z.pos mant * 2 ^ e)%Z
               else (Z.pos mant / 2 ^ (- e))%Z in
      Ok (if s then (- v)%Z else v)
  end.

#[export] Instance PyNum_float : PyNum float := {|
  nadd := PrimFloat.add;
  nmul := PrimFloat.mul;
  ndiv := PrimFloat.div;
  nneg := PrimFloat.opp;
  nsqrt := PrimFloat.sqrt;
  of_int := fun z =>
    match z with
    | Z0 => PrimFloat.zero
    | Zpos p => PrimFloat.of_uint63 (Uint63.of_Z (Zpos p))
    | Zneg p => PrimFloat.opp (PrimFloat.of_uint63 (Uint63.of_Z (Zpos p)))
    end;
  to_int := float_to_int;
  is_zero := fun x => PrimFloat.eqb x PrimFloat.zero
|}.

(** ** Exercise 2: velocity Verlet (cells 46, 48, 67) *)

Section Integrator.
Context {F : Type} `{PyNum F}.
Local Open Scope num_scope.

(** cell 46: [def f(q): return -q] *)
Definition f (q : F) : F := - q.

(** The variables a cell's loop reads and writes. *)
Record vv_state : Type := mk_vv {
  cur_p : F;
  cur_q : F;
  plist : list F;
  qlist : list F;
  flist : list F
}.

(** The body of [for i in range(steps)]. *)
Definition vv_body (dt : F) (s : vv_state) : vv_state :=
  let p := cur_p s + (f (cur_q s)) * dt / of_int 2 in
  let q := cur_q s + p * dt in
  let p := p + (f q) * dt / of_int 2 in
  {| cur_p := p;
     cur_q := q;
     plist := plist s ++ [p];
     qlist := qlist s ++ [q];
     flist := flist s ++ [f q] |}.

Definition vv_init (p0 q0 : F) : vv_state :=
  {| cur_p := p0; cur_q := q0; plist := []; qlist := []; flist := [] |}.

Definition vv_loop (dt : F) (steps : Z) (p0 q0 : F) : vv_state :=
  Nat.iter (Z.to_nat steps) (vv_body dt) (vv_init p0 q0).

(** [steps = int(tmax / dt)] *)
Definition steps_of (tmax dt : F) : result Z :=
  if is_zero dt then Raise ZeroDivisionError else to_int (tmax / dt).

(** cell 48, one ensemble member: the entry stored in [traj_ens[j]]. The
    cell sets [dt = 0.01] and [tmax = 100]; they are parameters here. *)
Definition traj_ens (dt tmax p0 q0 : F) : result vv_state :=
  (steps <- steps_of tmax dt ;;
   Ok (vv_loop dt steps p0 q0))%py.

(** cell 67, one ensemble member: restart from the negated last momentum
    and the last position of the forward entry, with the [steps] and [dt]
    left over from cell 48. *)
Definition inv_traj_ens (dt : F) (steps : Z) (fwd : vv_state)
  : result vv_state :=
  (p <- index_last (plist fwd) ;;
   q <- index_last (qlist fwd) ;;
   Ok (vv_loop dt steps (- p) q))%py.

(** The phase-space map of one loop iteration and its orbit. *)
Definition vv_step (dt : F) (s : F * F) : F * F :=
  let p := fst s + (f (snd s)) * dt / of_int 2 in
  let q := snd s + p * dt in
  (p + (f q) * dt / of_int 2, q).

Fixpoint orbit (dt : F) (n : nat) (s : F * F) : list (F * F) :=
  match n with
  | O => []
  | S n' => let s' := vv_step dt s in s' :: orbit dt n' s'
  end.

(** What the loop leaves behind, read off the orbit. *)
Definition vv_orbit_state (dt : F) (steps : Z) (p0 q0 : F) : vv_state :=
  let n := Z.to_nat steps in
  let orb := orbit dt n (p0, q0) in
  {| cur_p := fst (Nat.iter n (vv_step dt) (p0, q0));
     cur_q := snd (Nat.iter n (vv_step dt) (p0, q0));
     plist := map fst orb;
     qlist := map snd orb;
     flist := map (fun x => f (snd x)) orb |}.

Definition energy (p q : F) : F :=
  p * p / of_int 2 + q * q / of_int 2.

End Integrator.

Arguments vv_state F : clear implicits.

(** ** Exercise 1: quantum time correlation functions (cells 12 to 27) *)

Section Oscillator.
Context {F : Type} `{PyNum F}.
Local Open Scope num_scope.

(** cell 12 *)
Definition m : F := of_int 1.
Definition hbar : F := of_int 1.
Definition beta : F := of_int 1.

(** cell 13: [Ei(i, omega=1, return_zero=False)] *)
Definition Ei (i : Z) (omega : F) (return_zero : bool) : F :=
  if return_zero then (of_int i + of_int 1 / of_int 2) * hbar * omega
  else of_int i * hbar * omega.

(** cell 13: [qij(i, j, omega=1)] *)
Definition qij (i j : Z) (omega : F) : F :=
  if (i =? j - 1)%Z then
    nsqrt (hbar / (of_int 2 * m * omega)) * nsqrt (of_int j)
  else if (i =? j + 1)%Z then
    nsqrt (hbar / (of_int 2 * m * omega)) * nsqrt (of_int (j + 1))
  else of_int 0.

End Oscillator.

Local Open Scope R_scope.

(** Complex numbers as pairs (real part, imaginary part). A real operand of
    a mixed product or quotient is first promoted with [RtoC], as Python and
    NumPy do. *)
Definition complex : Type := R * R.

Definition RtoC (x : R) : complex := (x, 0).
Definition C0 : complex := RtoC 0.
Definition Cj : complex := (0, 1).
Definition Copp (z : complex) : complex := (- fst z, - snd z).
Definition Cadd (z w : complex) : complex := (fst z + fst w, snd z + snd w).
Definition Cmul (z w : complex) : complex :=
  (fst z * fst w - snd z * snd w, fst z * snd w + snd z * fst w).
Definition Cdiv (z w : complex) : complex :=
  ((fst z * fst w + snd z * snd w) / (fst w * fst w + snd w * snd w),
   (snd z * fst w - fst z * snd w) / (fst w * fst w + snd w * snd w)).
Definition Cexp (z : complex) : complex :=
  (exp (fst z) * cos (snd z), exp (fst z) * sin (snd z)).

(** NumPy arrays: a shape and the flat data; elementwise operations keep
    the shape. A Python scalar is the array of shape [[]]. *)
Record ndarray (A : Type) : Type := mk_nd {
  shape : list nat;
  data : list A
}.

Arguments mk_nd {A} shape data.
Arguments shape {A} n.
Arguments data {A} n.

Definition nd_map {A B : Type} (g : A -> B) (a : ndarray A) : ndarray B :=
  mk_nd (shape a) (map g (data a)).

Definition scalar {A : Type} (x : A) : ndarray A := mk_nd [] [x].

(** What the evaluators return: [rc / rz] is complex, [t * 0] is real. *)
Inductive value : Type :=
| RealArr (a : ndarray R)
| ComplexArr (a : ndarray complex).

(** [np.exp(-1j * (Ei(i, omega) - Ei(j, omega)) * t / hbar)] *)
Definition phase (i j : Z) (omega t : R) : complex :=
  Cexp (Cdiv (Cmul (Cmul (Copp Cj)
                         (RtoC (Ei i omega false - Ei j omega false)))
                   (RtoC t))
             (RtoC hbar)).

(** cell 17: the inner loop [for j in range(0, i + 2)] of [Cqq_std]; the
    two calls of [qij] leave [omega] at its default 1. *)
Definition Cqq_std_sumj (t omega : R) (i : Z) : complex :=
  fold_left
    (fun sumj j =>
       Cadd sumj (Cmul (Cmul (phase i j omega t) (RtoC (qij i j 1)))
                       (RtoC (qij j i 1))))
    (range2 0 (i + 2)) C0.

(** cell 17: the outer loop, accumulating [(rc, rz)]. The weights
    [exp(-beta Ei)] are exact reals; for [omega >= 0] they lie in (0, 1],
    as in binary64, while for [omega < 0] binary64 overflows once
    [-omega * i] passes 709.78. *)
Definition Cqq_std_loop (t omega : R) (i_max : Z) : complex * R :=
  fold_left
    (fun acc i =>
       (Cadd (fst acc)
             (Cmul (Cqq_std_sumj t omega i)
                   (RtoC (exp (- beta * Ei i omega false)))),
        snd acc + exp (- beta * Ei i omega false)))
    (range (i_max + 1)) (C0, 0).

(** cell 17: [Cqq_std(t, omega=1, i_max=100)] at one time value. *)
Definition Cqq_std_at (t omega : R) (i_max : Z) : complex :=
  Cdiv (fst (Cqq_std_loop t omega i_max))
       (RtoC (snd (Cqq_std_loop t omega i_max))).

(** cell 17: [Cqq_std] on an array of times, broadcasting elementwise. *)
Definition Cqq_std (t : ndarray R) (omega : R) (i_max : Z) : value :=
  if (i_max >? 0)%Z then
    ComplexArr (nd_map (fun tk => Cqq_std_at tk omega i_max) t)
  else
    RealArr (nd_map (fun tk => tk * 0) t).

(** [np.linspace(start, stop, num)]: [num] evenly spaced samples, the end
    point included; a negative [num] is rejected. *)
Definition linspace (start stop : R) (num : Z) : result (list R) :=
  if (num <? 0)%Z then Raise ValueError
  else Ok (map (fun k => start + IZR k * ((stop - start) / IZR (num - 1)))
               (range num)).

Definition np_sum (l : list R) : R := fold_left Rplus l 0.

(** cell 27: [lterm]; every [Ei] here is called without [omega]. The sum
    holds terms up to [exp(i - j)]: exact here, finite in binary64 only
    while [len(lgrid) * exp(i_max)] stays below the largest double. *)
Definition Cqq_kubo_lterm (lgrid : list R) (i j : Z) : result R :=
  (let s := np_sum (map (fun l => exp (- l * (Ei j 1 false - Ei i 1 false)))
                        lgrid) in
   l1 <- index lgrid 1 ;;
   l0 <- index lgrid 0 ;;
   Ok (s * (l1 - l0) / beta))%py.

(** cell 27: the inner loop [for j in range(i + 2)]. An array that
    broadcasts over [t] is a function of the time value. *)
Definition Cqq_kubo_inner (lgrid : list R) (i : Z) (rcqq : R -> complex)
  : result (R -> complex) :=
  fold_left
    (fun acc j =>
       (rcqq <- acc ;;
        lterm <- Cqq_kubo_lterm lgrid i j ;;
        Ok (fun t =>
              Cadd (rcqq t)
                   (Cmul (Cmul (Cmul (RtoC (lterm *
                                            exp (- beta * Ei i 1 false)))
                                     (phase i j 1 t))
                               (RtoC (qij i j 1)))
                         (RtoC (qij j i 1)))))%py)
    (range (i + 2)) (Ok rcqq).

(** cell 27: the outer loop, accumulating [(rcqq, rz)]. *)
Definition Cqq_kubo_loop (lgrid : list R) (i_max : Z)
  : result ((R -> complex) * R) :=
  fold_left
    (fun acc i =>
       (st <- acc ;;
        rcqq <- Cqq_kubo_inner lgrid i (fst st) ;;
        Ok (rcqq, snd st + exp (- beta * Ei i 1 false)))%py)
    (range (i_max + 1)) (Ok (fun _ => C0, 0)).

(** cell 27: [Cqq_kubo(t, omega=1, i_max=100, lgrid=1000)]. The parameter
    [omega] is accepted and never read. *)
Definition Cqq_kubo (t : ndarray R) (omega : R) (i_max lgrid : Z)
  : result value :=
  (lg <- linspace 0 beta lgrid ;;
   st <- Cqq_kubo_loop lg i_max ;;
   Ok (if (i_max >? 0)%Z then
         ComplexArr (nd_map (fun tk => Cdiv (fst st tk) (RtoC (snd st))) t)
       else
         RealArr (nd_map (fun tk => tk * 0) t)))%py.

(** The reference sum of the specification, with [omega] in the energies
    and in the matrix elements (written from the specification's words, to
    be compared with [Cqq_std_at]). *)
Definition Cqq_reference_sumj (t omega : R) (i : Z) : complex :=
  fold_left
    (fun sumj j =>
       Cadd sumj (Cmul (Cmul (phase i j omega t) (RtoC (qij i j omega)))
                       (RtoC (qij j i omega))))
    (range2 0 (i + 2)) C0.

Definition Cqq_reference (t omega : R) (i_max : Z) : complex :=
  Cdiv
    (fold_left
       (fun rc i => Cadd rc (Cmul (Cqq_reference_sumj t omega i)
                                  (RtoC (exp (- beta * Ei i omega false)))))
       (range (i_max + 1)) C0)
    (RtoC (fold_left (fun rz i => rz + exp (- beta * Ei i omega false))
                     (range (i_max + 1)) 0)).

(** A complex number with zero imaginary part and non-negative real
    part. *)
Definition real_nonneg (z : complex) : Prop := snd z = 0 /\ 0 <= fst z.

(** An all-zero real array with the shape of [t]. *)
Definition zeros_like (t : ndarray R) (v : value) : Prop :=
  exists a, v = RealArr a /\ shape a = shape t /\
            length (data a) = length (data t) /\
            Forall (fun x => x = 0) (data a).

(** ** Exercise 2, cell 62: the Boltzmann weight *)

(** The notebook globals [boltzweight] reads; [None] is an unbound name. *)
Record globals : Type := mk_globals {
  ps : option (list R);
  qs : option (list R)
}.

Definition lookup (x : option (list R)) : result (list R) :=
  match x with
  | Some a => Ok a
  | None => Raise NameError
  end.

(** Elementwise sum of two one-dimensional arrays with NumPy broadcasting:
    equal lengths, or one operand of length one. *)
Definition np_add (a b : list R) : result (list R) :=
  if (length a =? length b)%nat then
    Ok (map (fun ab => fst ab + snd ab) (combine a b))
  else
    match a, b with
    | [x], _ => Ok (map (fun y => x + y) b)
    | _, [y] => Ok (map (fun x => x + y) a)
    | _, _ => Raise ValueError
    end.

(** cell 62: [boltzweight(p, q, beta)]; the body names [ps] and [qs]. *)
Definition boltzweight {A B : Type} (g : globals) (p : A) (q : B) (beta : R)
  : result (list R) :=
  (ps_ <- lookup (ps g) ;;
   qs_ <- lookup (qs g) ;;
   e <- np_add (map (fun x => x ^ 2 / 2) ps_) (map (fun x => x ^ 2 / 2) qs_) ;;
   Ok (map (fun x => exp (- beta * x)) e))%py.

(** ** Comparing two recorded sequences in binary64 *)

(** [a] and [b] have the same length and differ by at most [tol]
    elementwise; a NaN difference fails the test. *)
Definition close_within (tol : float) (a b : list float) : bool :=
  (length a =? length b)%nat &&
  forallb
    (fun ab =>
       PrimFloat.leb (PrimFloat.abs (PrimFloat.sub (fst ab) (snd ab))) tol)
    (combine a b).

(** The phase-space reflection [(p, q) -> (-p, q)]. *)
Definition flip (s : R * R) : R * R := (- fst s, snd s).

(** The quantity velocity Verlet conserves exactly for [f(q) = -q]. *)
Definition shadow (dt : R) (s : R * R) : R :=
  fst s * fst s + (1 - dt * dt / 4) * (snd s * snd s).

(** ** Exercise 1, cells 35 and 39: damping, test signal, Fourier sum *)

Definition Cconj (z : complex) : complex := (fst z, - snd z).

(** cell 35: [fdamp(t)], [np.exp(-(t / 40 / np.pi)**2)], at one time value
    and on an array. *)
Definition fdamp_at (t : R) : R := exp (- (t / 40 / PI) ^ 2).

Definition fdamp (t : list R) : list R := map fdamp_at t.

(** [np.outer(a, b)]: one row per entry of [a]. *)
Definition np_outer (a b : list R) : list (list R) :=
  map (fun x => map (fun y => x * y) b) a.

(** [np.sum(rows, axis=0)] for rows of length [n]: the column sums. *)
Definition np_sum_axis0 (n : nat) (rows : list (list R)) : list R :=
  fold_left (fun acc row => map (fun ab => fst ab + snd ab) (combine acc row))
            rows (repeat 0 n).

(** cell 39: [wave(t, ws)], [np.sum(np.cos(np.outer(ws, t)), axis=0)]. *)
Definition wave (t ws : list R) : list R :=
  np_sum_axis0 (length t) (map (map cos) (np_outer ws t)).

(** Elementwise product of a complex and a real one-dimensional array with
    NumPy broadcasting: equal lengths, or one operand of length one. *)
Definition np_mul_CR (a : list complex) (b : list R) : result (list complex) :=
  if (length a =? length b)%nat then
    Ok (map (fun ab => Cmul (fst ab) (RtoC (snd ab))) (combine a b))
  else
    match a, b with
    | [x], _ => Ok (map (fun y => Cmul x (RtoC y)) b)
    | _, [y] => Ok (map (fun x => Cmul x (RtoC y)) a)
    | _, _ => Raise ValueError
    end.

Definition np_sum_C (l : list complex) : complex := fold_left Cadd l C0.

(** cell 39, one pass of the loop:
    [np.real(np.sum(dt * np.exp(-1j * w[i] * t) * signal))]. *)
Definition ft_entry (dt wi : R) (t signal : list R) : result R :=
  (prod <- np_mul_CR
             (map (fun tk =>
                     Cmul (RtoC dt)
                          (Cexp (Cmul (Cmul (Copp Cj) (RtoC wi)) (RtoC tk))))
                  t)
             signal ;;
   Ok (fst (np_sum_C prod)))%py.

(** cell 39: [dt = t[1] - t[0]] and the loop filling [ft], for a frequency
    grid [w]; [ft] is assigned left to right, so the first failing pass
    decides. *)
Definition ft_cell (t signal w : list R) : result (list R) :=
  (t1 <- index t 1 ;;
   t0 <- index t 0 ;;
   fold_left
     (fun acc wi =>
        ft <- acc ;;
        x <- ft_entry (t1 - t0) wi t signal ;;
        Ok (ft ++ [x]))
     w (Ok []))%py.

(** ** Exercise 2, cells 48, 64 and 67 as whole cells: the ensemble *)

(** A Python dict keyed by the trajectory index, in insertion order. *)
Fixpoint dict_set {V : Type} (d : list (Z * V)) (k : Z) (v : V)
  : list (Z * V) :=
  match d with
  | [] => [(k, v)]
  | (k', v') :: d' =>
      if (k' =? k)%Z then (k, v) :: d' else (k', v') :: dict_set d' k v
  end.

Fixpoint dict_get {V : Type} (d : list (Z * V)) (k : Z) : option V :=
  match d with
  | [] => None
  | (k', v') :: d' => if (k' =? k)%Z then Some v' else dict_get d' k
  end.

(** What a whole cell does: it finishes, or stops at a missing key
    ([KeyError]), or at an exception of the code it runs. *)
Inductive cell_result (A : Type) : Type :=
| Done (a : A)
| KeyError (k : Z)
| Failed (e : pyerr).

Arguments Done {A} a.
Arguments KeyError {A} k.
Arguments Failed {A} e.

Section Ensemble.
Context {F : Type} `{PyNum F}.

(** cell 48: [for j, p0, q0 in zip(range(n_trajs), p0s, q0s)], each pass
    storing one run under [traj_ens[j]]. *)
Definition traj_ens_cell (n_trajs : Z) (p0s q0s : list F) (dt tmax : F)
  : result (list (Z * vv_state F)) :=
  fold_left
    (fun acc jpq =>
       (d <- acc ;;
        tr <- traj_ens dt tmax (fst (snd jpq)) (snd (snd jpq)) ;;
        Ok (dict_set d (fst jpq) tr))%py)
    (combine (range n_trajs) (combine p0s q0s)) (Ok []).

(** cell 67: [for j in range(n_trajs)], reading [traj_ens[j]] and storing
    the reversed run under [inv_traj_ens[j]]. *)
Definition inv_traj_ens_cell (n_trajs : Z) (fwd : list (Z * vv_state F))
  (dt : F) (steps : Z) : cell_result (list (Z * vv_state F)) :=
  fold_left
    (fun acc j =>
       match acc with
       | Done d =>
           match dict_get fwd j with
           | None => KeyError j
           | Some tr =>
               match inv_traj_ens dt steps tr with
               | Ok inv => Done (dict_set d j inv)
               | Raise e => Failed e
               end
           end
       | KeyError k => KeyError k
       | Failed e => Failed e
       end)
    (range n_trajs) (Done []).

End Ensemble.

(** cell 64, one pass: bind the globals [ps], [qs] to the recorded lists of
    one trajectory. *)
Definition globals_of (tr : vv_state R) : globals :=
  mk_globals (Some (plist tr)) (Some (qlist tr)).

(** ** The loop records the orbit *)

Section LoopFacts.
Context {F : Type} `{PyNum F}.

Lemma orbit_snoc (dt : F) (n : nat) (s : F * F) :
  orbit dt (S n) s = orbit dt n s ++ [Nat.iter (S n) (vv_step dt) s].
Proof.
  revert s. induction n as [|n IH]; intros s.
  - reflexivity.
  - change (orbit dt (S (S n)) s)
      with (vv_step dt s :: orbit dt (S n) (vv_step dt s)).
    rewrite IH. cbn [orbit app]. f_equal. f_equal. f_equal.
    rewrite <- !Nat.iter_succ_r. reflexivity.
Qed.

Lemma orbit_length (dt : F) (n : nat) (s : F * F) :
  length (orbit dt n s) = n.
Proof.
  revert s. induction n as [|n IH]; intros s; cbn; [|rewrite IH]; reflexivity.
Qed.

Lemma orbit_nth (dt : F) (n k : nat) (s d : F * F) :
  (k < n)%nat ->
  nth k (orbit dt n s) d = Nat.iter (S k) (vv_step dt) s.
Proof.
  revert k s. induction n as [|n IH]; intros k s Hk; [lia|].
  destruct k as [|k]; cbn [orbit nth].
  - reflexivity.
  - rewrite IH by lia. rewrite <- !Nat.iter_succ_r. reflexivity.
Qed.

(** After [n] iterations the loop variables hold the [n]-th iterate and
    the three lists hold the orbit so far. *)
Lemma vv_iter_spec (dt p0 q0 : F) (n : nat) :
  let s := Nat.iter n (vv_body dt) (vv_init p0 q0) in
  (cur_p s, cur_q s) = Nat.iter n (vv_step dt) (p0, q0) /\
  plist s = map fst (orbit dt n (p0, q0)) /\
  qlist s = map snd (orbit dt n (p0, q0)) /\
  flist s = map (fun x => f (snd x)) (orbit dt n (p0, q0)).
Proof.
  cbn zeta. induction n as [|n IH].
  - cbn. repeat split.
  - destruct IH as (Hc & Hp & Hq & Hf).
    rewrite orbit_snoc, !map_app, !Nat.iter_succ.
    set (s := Nat.iter n (vv_body dt) (vv_init p0 q0)) in *.
    set (it := Nat.iter n (vv_step dt) (p0, q0)) in *.
    assert (Hcp : cur_p s = fst it) by (rewrite <- Hc; reflexivity).
    assert (Hcq : cur_q s = snd it) by (rewrite <- Hc; reflexivity).
    unfold vv_body, vv_step. cbn [cur_p cur_q plist qlist flist fst snd map].
    rewrite Hp, Hq, Hf, Hcp, Hcq.
    repeat split.
Qed.

Lemma vv_loop_spec (dt p0 q0 : F) (steps : Z) :
  let s := vv_loop dt steps p0 q0 in
  let n := Z.to_nat steps in
  (cur_p s, cur_q s) = Nat.iter n (vv_step dt) (p0, q0) /\
  plist s = map fst (orbit dt n (p0, q0)) /\
  qlist s = map snd (orbit dt n (p0, q0)) /\
  flist s = map (fun x => f (snd x)) (orbit dt n (p0, q0)).
Proof. apply vv_iter_spec. Qed.

Lemma vv_loop_orbit (dt p0 q0 : F) (steps : Z) :
  vv_loop dt steps p0 q0 = vv_orbit_state dt steps p0 q0.
Proof.
  destruct (vv_loop_spec dt p0 q0 steps) as (Hc & Hp & Hq & Hf).
  cbn zeta in Hc, Hp, Hq, Hf. unfold vv_orbit_state. cbn zeta.
  rewrite <- Hc, <- Hp, <- Hq, <- Hf.
  destruct (vv_loop dt steps p0 q0). reflexivity.
Qed.

Lemma bind_ext {A B : Type} (r : result A) (k k' : A -> result B) :
  (forall a, k a = k' a) -> bind r k = bind r k'.
Proof. intros E. destruct r; [apply E|reflexivity]. Qed.

Lemma traj_ens_orbit (dt tmax p0 q0 : F) :
  traj_ens dt tmax p0 q0 =
  bind (steps_of tmax dt) (fun steps => Ok (vv_orbit_state dt steps p0 q0)).
Proof.
  unfold traj_ens. apply bind_ext. intros steps.
  rewrite vv_loop_orbit. reflexivity.
Qed.

Lemma inv_traj_ens_orbit (dt : F) (steps : Z) (fwd : vv_state F) :
  inv_traj_ens dt steps fwd =
  bind (index_last (plist fwd)) (fun p =>
  bind (index_last (qlist fwd)) (fun q =>
  Ok (vv_orbit_state dt steps (nneg p) q))).
Proof.
  unfold inv_traj_ens. apply bind_ext. intros p. apply bind_ext. intros q.
  rewrite vv_loop_orbit. reflexivity.
Qed.

End LoopFacts.

(** Evaluates a closed binary64 run through the orbit form of the loop. *)
Ltac run_binary64 :=
  rewrite traj_ens_orbit;
  try (erewrite bind_ext;
       [|intros ?fwd; rewrite inv_traj_ens_orbit; reflexivity]);
  vm_compute; reflexivity.

(** ** Velocity Verlet in exact arithmetic *)

Section ExactIntegrator.
Variable dt : R.

Lemma vv_step_R (p q : R) :
  vv_step dt (p, q) =
  (p * (1 - dt * dt / 2) - q * dt * (1 - dt * dt / 4),
   q * (1 - dt * dt / 2) + p * dt).
Proof.
  unfold vv_step, f. cbn. f_equal; field.
Qed.

Lemma vv_step_flip (s : R * R) :
  vv_step dt (flip (vv_step dt s)) = flip s.
Proof.
  destruct s as [p q]. rewrite vv_step_R. unfold flip. cbn [fst snd].
  rewrite vv_step_R. f_equal; field.
Qed.

Lemma shadow_step (s : R * R) :
  shadow dt (vv_step dt s) = shadow dt s.
Proof.
  destruct s as [p q]. rewrite vv_step_R. unfold shadow. cbn [fst snd]. field.
Qed.

Lemma shadow_iter (n : nat) (s : R * R) :
  shadow dt (Nat.iter n (vv_step dt) s) = shadow dt s.
Proof.
  induction n as [|n IH]; [reflexivity|].
  rewrite Nat.iter_succ, shadow_step. exact IH.
Qed.

(** Restarting from the reflected end point retraces the orbit. *)
Lemma orbit_flip (n : nat) (s : R * R) :
  orbit dt (S n) (flip (Nat.iter (S n) (vv_step dt) s)) =
  map flip (rev (s :: orbit dt n s)).
Proof.
  induction n as [|n IH].
  - change (Nat.iter 1 (vv_step dt) s) with (vv_step dt s).
    cbn [orbit rev map app]. rewrite vv_step_flip. reflexivity.
  - change (orbit dt (S (S n)) (flip (Nat.iter (S (S n)) (vv_step dt) s)))
      with (vv_step dt (flip (Nat.iter (S (S n)) (vv_step dt) s)) ::
            orbit dt (S n)
              (vv_step dt (flip (Nat.iter (S (S n)) (vv_step dt) s)))).
    rewrite (Nat.iter_succ (S n)), vv_step_flip, IH.
    rewrite (orbit_snoc dt n s).
    change (s :: orbit dt n s ++ [Nat.iter (S n) (vv_step dt) s])
      with ((s :: orbit dt n s) ++ [Nat.iter (S n) (vv_step dt) s]).
    rewrite rev_app_distr. reflexivity.
Qed.

End ExactIntegrator.

Lemma index_last_snoc {A : Type} (l : list A) (x : A) :
  index_last (l ++ [x]) = Ok x.
Proof. unfold index_last. rewrite fold_left_app. reflexivity. Qed.

Lemma reversed_rev {A : Type} (l : list A) : reversed l = rev l.
Proof. unfold reversed. symmetry. apply rev_alt. Qed.

Lemma map_snd_flip (l : list (R * R)) : map snd (map flip l) = map snd l.
Proof. rewrite map_map. apply map_ext. intros [p q]. reflexivity. Qed.

(** The reversed run of cell 67 after a forward run of [S n] steps. *)
Lemma inv_traj_ens_R (dt p0 q0 : R) (n : nat) :
  let fwd := vv_loop dt (Z.of_nat (S n)) p0 q0 in
  exists inv,
    inv_traj_ens dt (Z.of_nat (S n)) fwd = Ok inv /\
    rev (qlist inv) = removelast (q0 :: qlist fwd).
Proof.
  cbn zeta.
  destruct (vv_loop_spec dt p0 q0 (Z.of_nat (S n))) as (_ & Hp & Hq & _).
  cbn zeta in Hp, Hq. rewrite Nat2Z.id in Hp, Hq.
  unfold inv_traj_ens. rewrite Hp, Hq.
  rewrite (orbit_snoc dt n (p0, q0)), !map_app. cbn [map].
  rewrite !index_last_snoc. cbn [bind].
  eexists. split; [reflexivity|].
  destruct (vv_loop_spec dt
              (nneg (fst (Nat.iter (S n) (vv_step dt) (p0, q0))))
              (snd (Nat.iter (S n) (vv_step dt) (p0, q0)))
              (Z.of_nat (S n))) as (_ & _ & Hq' & _).
  cbn zeta in Hq'. rewrite Nat2Z.id in Hq'. rewrite Hq'.
  change (nneg (fst (Nat.iter (S n) (vv_step dt) (p0, q0))),
          snd (Nat.iter (S n) (vv_step dt) (p0, q0)))
    with (flip (Nat.iter (S n) (vv_step dt) (p0, q0))).
  rewrite orbit_flip, map_snd_flip, <- map_rev, rev_involutive.
  change (q0 :: map snd (orbit dt n (p0, q0)) ++
            [snd (Nat.iter (S n) (vv_step dt) (p0, q0))])
    with ((q0 :: map snd (orbit dt n (p0, q0))) ++
            [snd (Nat.iter (S n) (vv_step dt) (p0, q0))]).
  rewrite removelast_last. reflexivity.
Qed.

(** The state before step [k] is the [k]-th entry of the initial state
    followed by the recorded ones. *)
Lemma states_nth {F : Type} `{PyNum F} (dt : F) (n k : nat) (s d : F * F) :
  (k <= n)%nat ->
  nth k (s :: orbit dt n s) d = Nat.iter k (vv_step dt) s.
Proof.
  intros Hk. destruct k as [|k]; [reflexivity|].
  cbn [nth]. apply orbit_nth. lia.
Qed.

Lemma recorded_nth (dt p0 q0 : R) (N : Z) (k : nat) :
  (k <= Z.to_nat N)%nat ->
  (nth k (p0 :: plist (vv_loop dt N p0 q0)) 0,
   nth k (q0 :: qlist (vv_loop dt N p0 q0)) 0) =
  Nat.iter k (vv_step dt) (p0, q0).
Proof.
  intros Hk.
  destruct (vv_loop_spec dt p0 q0 N) as (_ & Hp & Hq & _).
  cbn zeta in Hp, Hq. rewrite Hp, Hq.
  change (p0 :: map fst (orbit dt (Z.to_nat N) (p0, q0)))
    with (map fst ((p0, q0) :: orbit dt (Z.to_nat N) (p0, q0))).
  change (q0 :: map snd (orbit dt (Z.to_nat N) (p0, q0)))
    with (map snd ((p0, q0) :: orbit dt (Z.to_nat N) (p0, q0))).
  change 0 with (fst (0, 0)) at 1. rewrite map_nth.
  change 0 with (snd (0, 0)) at 3. rewrite map_nth.
  rewrite (states_nth dt _ k (p0, q0) (0, 0) Hk).
  symmetry. apply surjective_pairing.
Qed.

Lemma recorded_lengths {F : Type} `{PyNum F} (dt p0 q0 : F) (N : Z) :
  length (plist (vv_loop dt N p0 q0)) = Z.to_nat N /\
  length (qlist (vv_loop dt N p0 q0)) = Z.to_nat N /\
  length (flist (vv_loop dt N p0 q0)) = Z.to_nat N.
Proof.
  destruct (vv_loop_spec dt p0 q0 N) as (_ & Hp & Hq & Hf).
  cbn zeta in Hp, Hq, Hf. rewrite Hp, Hq, Hf.
  rewrite !length_map, orbit_length. repeat split.
Qed.

Lemma nth_removelast {A : Type} (l : list A) (k : nat) (d : A) :
  (S k < length l)%nat -> nth k (removelast l) d = nth k l d.
Proof.
  intros Hk. destruct l as [|a l]; [cbn in Hk; lia|].
  rewrite (app_removelast_last d (l := a :: l)) at 2 by discriminate.
  rewrite app_nth1; [reflexivity|].
  assert (Hl : length (a :: l) = S (length (removelast (a :: l)))).
  { rewrite (app_removelast_last d (l := a :: l)) at 1 by discriminate.
    rewrite length_app. cbn. lia. }
  lia.
Qed.

(** The first recorded position of a run from [(1, 0)]. *)
Lemma first_position_R (dt : R) (n : nat) :
  nth 0 (qlist (vv_loop dt (Z.of_nat (S n)) 1 0)) 0 = dt.
Proof.
  destruct (vv_loop_spec dt 1 0 (Z.of_nat (S n))) as (_ & _ & Hq & _).
  cbn zeta in Hq. rewrite Nat2Z.id in Hq. rewrite Hq.
  cbn [orbit map nth]. rewrite vv_step_R. cbn [snd]. ring.
Qed.

(** ** Time reversal (cells 48, 67, 69) *)

(** C8. In exact arithmetic one velocity-Verlet step with [f(q) = -q] maps
    [(-p_{k+1}, q_{k+1})] to [(-p_k, q_k)]; hence the position list of the
    reversed run, read backwards, is [q_0, ..., q_{N-1}]: the forward list
    [q_1, ..., q_N] delayed by one step. It is not the forward list itself:
    with [p0 = 1], [q0 = 0], [dt = 1], [N = 1] the two differ. *)
Theorem C8_reversed_run_is_shifted :
  (forall (p0 q0 dt : R) (N : Z), (1 <= N)%Z ->
     let fwd := vv_loop dt N p0 q0 in
     (forall k : nat, (k < Z.to_nat N)%nat ->
        vv_step dt (- nth (S k) (p0 :: plist fwd) 0,
                    nth (S k) (q0 :: qlist fwd) 0) =
        (- nth k (p0 :: plist fwd) 0, nth k (q0 :: qlist fwd) 0)) /\
     exists inv,
       inv_traj_ens dt N fwd = Ok inv /\
       length (qlist inv) = Z.to_nat N /\
       reversed (qlist inv) = removelast (q0 :: qlist fwd)) /\
  (exists inv,
     inv_traj_ens 1 1 (vv_loop 1 1 1 0) = Ok inv /\
     reversed (qlist inv) <> qlist (vv_loop 1 1 1 0)).
Proof.
  split.
  - intros p0 q0 dt N HN. cbn zeta. split.
    + intros k Hk.
      pose proof (recorded_nth dt p0 q0 N (S k) ltac:(lia)) as HS.
      pose proof (recorded_nth dt p0 q0 N k ltac:(lia)) as Hk0.
      rewrite Nat.iter_succ in HS.
      set (a := nth (S k) (p0 :: plist (vv_loop dt N p0 q0)) 0) in *.
      set (b := nth (S k) (q0 :: qlist (vv_loop dt N p0 q0)) 0) in *.
      set (c := nth k (p0 :: plist (vv_loop dt N p0 q0)) 0) in *.
      set (d := nth k (q0 :: qlist (vv_loop dt N p0 q0)) 0) in *.
      change (- a, b) with (flip (a, b)). change (- c, d) with (flip (c, d)).
      rewrite HS, Hk0. apply vv_step_flip.
    + destruct (Z.to_nat N) as [|n] eqn:En; [lia|].
      assert (HNn : N = Z.of_nat (S n)) by lia. rewrite HNn.
      destruct (inv_traj_ens_R dt p0 q0 n) as (inv & Hinv & Hrev).
      exists inv. split; [exact Hinv|]. rewrite reversed_rev.
      split; [|exact Hrev].
      apply (f_equal (@length R)) in Hrev.
      rewrite length_rev in Hrev. rewrite Hrev.
      destruct (recorded_lengths dt p0 q0 (Z.of_nat (S n))) as (_ & Hl & _).
      rewrite Nat2Z.id in Hl.
      destruct (qlist (vv_loop dt (Z.of_nat (S n)) p0 q0)) as [|x l] eqn:El;
        [discriminate|].
      rewrite <- Hl.
      change (q0 :: x :: l) with ([q0] ++ x :: l).
      rewrite removelast_app by discriminate. rewrite length_app.
      pose proof (app_removelast_last x (l := x :: l) ltac:(discriminate)) as E.
      apply (f_equal (@length R)) in E. rewrite length_app in E.
      cbn [length] in E |- *. lia.
  - destruct (inv_traj_ens_R 1 1 0 0) as (inv & Hinv & Hrev).
    exists inv. split; [exact Hinv|].
    rewrite reversed_rev, Hrev.
    destruct (recorded_lengths 1 1 0 (Z.of_nat 1)) as (_ & Hl & _).
    pose proof (first_position_R 1 0) as H0.
    change (Z.of_nat 1) with 1%Z in *.
    destruct (qlist (vv_loop 1 1 1 0)) as [|x [|y l]]; try discriminate.
    cbn in H0. subst x. cbn. intros E. injection E as E. lra.
Qed.

Lemma C8_reversed_run_is_shifted_witness :
  (1 <= 2)%Z /\
  exists inv,
    inv_traj_ens 1 2 (vv_loop 1 2 0 1) = Ok inv /\
    length (qlist inv) = Z.to_nat 2 /\
    reversed (qlist inv) = removelast (1 :: qlist (vv_loop 1 2 0 1)).
Proof.
  split; [lia|].
  exact (proj2 (proj1 C8_reversed_run_is_shifted 0 1 1 2%Z ltac:(lia))).
Defined.

(** C1 (as amended). For every initial condition, step size and [N >= 1],
    in exact arithmetic the position list of the reversed run, read
    backwards, agrees entry by entry with the initial position followed by
    the forward position list, that is with the forward list delayed by one
    step; in binary64, for the cell's [dt = 0.01], [tmax = 100] (10000
    steps) and [p0 = 1], [q0 = 0], the two agree to within [1e-10]. *)
Theorem C1_reversed_run_delayed :
  (forall (p0 q0 dt : R) (N : Z), (1 <= N)%Z ->
     exists inv,
       inv_traj_ens dt N (vv_loop dt N p0 q0) = Ok inv /\
       length (qlist inv) = Z.to_nat N /\
       forall k : nat, (k < Z.to_nat N)%nat ->
         nth k (reversed (qlist inv)) 0 =
         nth k (q0 :: qlist (vv_loop dt N p0 q0)) 0) /\
  (fwd <- traj_ens 0.01%float 100%float 1%float 0%float ;;
   inv <- inv_traj_ens 0.01%float 10000 fwd ;;
   Ok (Nat.eqb (length (qlist fwd)) 10000 &&
       close_within 1e-10%float (reversed (qlist inv))
                    (removelast (0%float :: qlist fwd))))%py = Ok true.
Proof.
  split; [|run_binary64].
  - intros p0 q0 dt N HN.
    destruct (Z.to_nat N) as [|n] eqn:En; [lia|].
    assert (HNn : N = Z.of_nat (S n)) by lia. rewrite HNn.
    destruct (inv_traj_ens_R dt p0 q0 n) as (inv & Hinv & Hrev).
    destruct (recorded_lengths dt p0 q0 (Z.of_nat (S n))) as (_ & Hl & _).
    rewrite Nat2Z.id in Hl.
    assert (Hlen : length (qlist inv) = S n).
    { apply (f_equal (@length R)) in Hrev. rewrite length_rev in Hrev.
      rewrite Hrev.
      pose proof (app_removelast_last 0
                    (l := q0 :: qlist (vv_loop dt (Z.of_nat (S n)) p0 q0))
                    ltac:(discriminate)) as E.
      apply (f_equal (@length R)) in E. rewrite length_app in E.
      cbn [length] in E. lia. }
    exists inv. split; [exact Hinv|]. split; [exact Hlen|].
    intros k Hk. rewrite reversed_rev, Hrev.
    apply nth_removelast. cbn [length]. lia.
Qed.

Lemma C1_reversed_run_delayed_witness :
  (1 <= 3)%Z /\
  exists inv,
    inv_traj_ens (1 / 2) 3 (vv_loop (1 / 2) 3 1 0) = Ok inv /\
    length (qlist inv) = Z.to_nat 3 /\
    forall k : nat, (k < Z.to_nat 3)%nat ->
      nth k (reversed (qlist inv)) 0 =
      nth k (0 :: qlist (vv_loop (1 / 2) 3 1 0)) 0.
Proof.
  split; [lia|].
  exact (proj1 C1_reversed_run_delayed 1 0 (1 / 2) 3%Z ltac:(lia)).
Defined.

(** C1 as stated fails. In binary64, with the cell's [dt = 0.01] and 10000
    steps from [p0 = 1], [q0 = 0], the reversed position list read
    backwards and the forward position list differ by more than [1e-10]
    already in their first entry; in exact arithmetic, for the same input,
    the first entries are [0] and [1/100]. *)
Lemma C1_counterexample :
  steps_of 100%float 0.01%float = Ok 10000%Z /\
  (fwd <- traj_ens 0.01%float 100%float 1%float 0%float ;;
   inv <- inv_traj_ens 0.01%float 10000 fwd ;;
   Ok (PrimFloat.ltb 1e-10%float
         (PrimFloat.abs
            (PrimFloat.sub (nth 0 (reversed (qlist inv)) 0%float)
                           (nth 0 (qlist fwd) 0%float))),
       close_within 1e-10%float (reversed (qlist inv)) (qlist fwd)))%py
  = Ok (true, false) /\
  (exists inv,
     inv_traj_ens (1 / 100) 10000 (vv_loop (1 / 100) 10000 1 0) = Ok inv /\
     Rabs (nth 0 (reversed (qlist inv)) 0 -
           nth 0 (qlist (vv_loop (1 / 100) 10000 1 0)) 0) > 1 / 10 ^ 10).
Proof.
  split; [vm_compute; reflexivity|].
  split; [run_binary64|].
  replace 10000%Z with (Z.of_nat (S 9999)) by (vm_compute; reflexivity).
  destruct (inv_traj_ens_R (1 / 100) 1 0 9999) as (inv & Hinv & Hrev).
  exists inv. split; [exact Hinv|].
  rewrite reversed_rev, Hrev, first_position_R.
  destruct (recorded_lengths (1 / 100) 1 0 (Z.of_nat (S 9999))) as (_ & Hl & _).
  rewrite Nat2Z.id in Hl.
  destruct (qlist (vv_loop (1 / 100) (Z.of_nat (S 9999)) 1 0)) as [|x l];
    [discriminate|].
  cbn [removelast nth].
  replace (0 - 1 / 100) with (- (1 / 100)) by ring.
  rewrite Rabs_Ropp, Rabs_pos_eq by lra.
  apply Rlt_gt. apply Rmult_lt_reg_r with (r := 10 ^ 10).
  - apply pow_lt. lra.
  - unfold Rdiv at 1. rewrite Rmult_assoc, Rinv_l, Rmult_1_r.
    + lra.
    + apply pow_nonzero. lra.
Qed.

(** ** The integrator's contract (cell 48) *)

Lemma flist_qlist {F : Type} `{PyNum F} (dt p0 q0 : F) (N : Z) :
  flist (vv_loop dt N p0 q0) = map f (qlist (vv_loop dt N p0 q0)).
Proof.
  destruct (vv_loop_spec dt p0 q0 N) as (_ & _ & Hq & Hf).
  cbn zeta in Hq, Hf. rewrite Hq, Hf, map_map. reflexivity.
Qed.

Lemma nth_map_default {A B : Type} (g : A -> B) (l : list A) (k : nat)
  (d : B) (a : A) :
  (k < length l)%nat -> nth k (map g l) d = g (nth k l a).
Proof.
  intros Hk. rewrite (nth_indep _ d (g a)) by (rewrite length_map; exact Hk).
  apply map_nth.
Qed.

(** The state before step [k], in either number model. *)
Lemma recorded_nth_any {F : Type} `{PyNum F} (dt p0 q0 d : F) (N : Z)
  (k : nat) :
  (k <= Z.to_nat N)%nat ->
  (nth k (p0 :: plist (vv_loop dt N p0 q0)) d,
   nth k (q0 :: qlist (vv_loop dt N p0 q0)) d) =
  Nat.iter k (vv_step dt) (p0, q0).
Proof.
  intros Hk.
  destruct (vv_loop_spec dt p0 q0 N) as (_ & Hp & Hq & _).
  cbn zeta in Hp, Hq. rewrite Hp, Hq.
  destruct k as [|k]; [reflexivity|]. cbn [nth].
  rewrite (nth_map_default fst _ k d (d, d))
    by (rewrite orbit_length; lia).
  rewrite (nth_map_default snd _ k d (d, d))
    by (rewrite orbit_length; lia).
  rewrite <- surjective_pairing. apply orbit_nth. lia.
Qed.

(** C5. In either number model (exact reals, binary64): whenever
    [int(tmax / dt)] evaluates to a step count [N], the cell runs
    [range(N)] and returns three lists of the same length, [N] when [N] is
    not negative; entry [k] holds the state after the half kick, drift,
    half kick, in this order, applied to the state before it (the initial
    state for [k = 0], which is not recorded), and the force at the new
    position. When [int(tmax / dt)] raises, so does the cell. With
    [p0 = 0], [q0 = 1], [dt = 0.01] and one step the recorded position is
    [0.99995], exactly and in binary64. *)
Theorem C5_integrator_contract :
  (forall (F : Type) (H : PyNum F) (p0 q0 dt tmax : F) (N : Z),
     steps_of tmax dt = Ok N ->
     exists tr,
       traj_ens dt tmax p0 q0 = Ok tr /\
       length (plist tr) = Z.to_nat N /\
       length (qlist tr) = Z.to_nat N /\
       length (flist tr) = Z.to_nat N /\
       ((0 <= N)%Z -> Z.of_nat (length (qlist tr)) = N) /\
       forall (k : nat) (d : F), (k < Z.to_nat N)%nat ->
         let p := nth k (p0 :: plist tr) d in
         let q := nth k (q0 :: qlist tr) d in
         let p1 := (p + (- q) * dt / of_int 2)%num in
         let q1 := (q + p1 * dt)%num in
         let p2 := (p1 + (- q1) * dt / of_int 2)%num in
         nth k (plist tr) d = p2 /\
         nth k (qlist tr) d = q1 /\
         nth k (flist tr) d = (- q1)%num) /\
  (forall (F : Type) (H : PyNum F) (p0 q0 dt tmax : F) (e : pyerr),
     steps_of tmax dt = Raise e -> traj_ens dt tmax p0 q0 = Raise e) /\
  qlist (vv_loop (1 / 100) 1 0 1) = [99995 / 100000] /\
  qlist (vv_loop 0.01%float 1 0%float 1%float) = [0.99995%float].
Proof.
  split; [|split; [|split]].
  - intros F H p0 q0 dt tmax N Hs.
    unfold traj_ens. rewrite Hs. cbn [bind].
    eexists. split; [reflexivity|].
    destruct (recorded_lengths dt p0 q0 N) as (Lp & Lq & Lf).
    repeat (split; [assumption|]).
    split; [intros HN; rewrite Lq; apply Z2Nat.id; exact HN|].
    intros k d Hk.
    pose proof (recorded_nth_any dt p0 q0 d N (S k) ltac:(lia)) as HS.
    pose proof (recorded_nth_any dt p0 q0 d N k ltac:(lia)) as Hk0.
    rewrite Nat.iter_succ, <- Hk0 in HS. cbn [nth] in HS.
    unfold vv_step, f in HS. cbn [fst snd] in HS.
    injection HS as HP HQ. cbn zeta.
    split; [exact HP|]. split; [exact HQ|].
    rewrite flist_qlist.
    rewrite (nth_map_default f _ k d d) by lia.
    rewrite HQ. reflexivity.
  - intros F H p0 q0 dt tmax e Hs. unfold traj_ens. rewrite Hs. reflexivity.
  - destruct (vv_loop_spec (1 / 100) 0 1 1) as (_ & _ & Hq & _).
    cbn zeta in Hq. rewrite Hq.
    change (Z.to_nat 1) with 1%nat. cbn [orbit map].
    rewrite vv_step_R. cbn [snd]. f_equal. field.
  - vm_compute. reflexivity.
Qed.

(** In binary64 [0.3 / 0.1] rounds to [2.9999999999999996], so the step
    count is 2; a quotient that overflows or a zero [dt] raises. *)
Remark steps_of_binary64 :
  steps_of 0.3%float 0.1%float = Ok 2%Z /\
  steps_of 1e308%float 1e-10%float = Raise OverflowError /\
  steps_of 1%float 0%float = Raise ZeroDivisionError.
Proof. vm_compute. repeat split. Qed.

Lemma C5_integrator_contract_witness :
  steps_of 0.3%float 0.1%float = Ok 2%Z /\
  exists tr,
    traj_ens 0.1%float 0.3%float 0%float 1%float = Ok tr /\
    length (plist tr) = Z.to_nat 2 /\
    length (qlist tr) = Z.to_nat 2 /\
    length (flist tr) = Z.to_nat 2 /\
    ((0 <= 2)%Z -> Z.of_nat (length (qlist tr)) = 2%Z) /\
    forall (k : nat) (d : float), (k < Z.to_nat 2)%nat ->
      let p := nth k (0%float :: plist tr) d in
      let q := nth k (1%float :: qlist tr) d in
      let p1 := (p + (- q) * 0.1%float / of_int 2)%num in
      let q1 := (q + p1 * 0.1%float)%num in
      let p2 := (p1 + (- q1) * 0.1%float / of_int 2)%num in
      nth k (plist tr) d = p2 /\
      nth k (qlist tr) d = q1 /\
      nth k (flist tr) d = (- q1)%num.
Proof.
  split; [vm_compute; reflexivity|].
  exact (proj1 C5_integrator_contract float PyNum_float
           0%float 1%float 0.1%float 0.3%float 2%Z
           ltac:(vm_compute; reflexivity)).
Defined.

(** The cell's own step count: [int(100 / 0.01) = 10000], exactly and in
    binary64. *)
Lemma steps_of_cell :
  steps_of 100 (1 / 100) = Ok 10000%Z /\
  steps_of 100%float 0.01%float = Ok 10000%Z.
Proof.
  split; [|vm_compute; reflexivity].
  unfold steps_of. cbn [is_zero to_int ndiv PyNum_R].
  destruct (Req_dec_T (1 / 100) 0) as [E|_]; [lra|].
  f_equal. unfold Rtrunc.
  replace (100 / (1 / 100)) with (IZR 10000) by field.
  destruct (Rle_dec 0 (IZR 10000)) as [_|Hn]; [|exfalso; apply Hn; lra].
  symmetry. apply Int_part_spec. lra.
Qed.

(** ** Energy drift *)

Lemma energy_R (p q : R) : energy p q = p * p / 2 + q * q / 2.
Proof. reflexivity. Qed.

(** Along any orbit the energy stays within [E0/3 * dt^2] of its initial
    value, for [0 < dt <= 1]. *)
Lemma energy_drift_iter (dt : R) (s0 : R * R) (n : nat) :
  0 < dt <= 1 ->
  let s := Nat.iter n (vv_step dt) s0 in
  Rabs (energy (fst s) (snd s) - energy (fst s0) (snd s0)) <=
  energy (fst s0) (snd s0) / 3 * (dt * dt).
Proof.
  intros Hdt. cbn zeta.
  pose proof (shadow_iter dt n s0) as Hs.
  destruct (Nat.iter n (vv_step dt) s0) as [p q]. destruct s0 as [p0 q0].
  unfold shadow in Hs. cbn [fst snd] in *. rewrite !energy_R.
  assert (Hd : 0 < dt * dt <= 1) by nra.
  set (h := dt * dt) in *.
  assert (Hq : 3 / 4 * (q * q) <= p0 * p0 + q0 * q0) by nra.
  apply Rabs_le. split; nra.
Qed.

Lemma last_recorded {F : Type} `{PyNum F} (dt p0 q0 : F) (n : nat) :
  let tr := vv_loop dt (Z.of_nat (S n)) p0 q0 in
  index_last (plist tr) = Ok (fst (Nat.iter (S n) (vv_step dt) (p0, q0))) /\
  index_last (qlist tr) = Ok (snd (Nat.iter (S n) (vv_step dt) (p0, q0))).
Proof.
  cbn zeta.
  destruct (vv_loop_spec dt p0 q0 (Z.of_nat (S n))) as (_ & Hp & Hq & _).
  cbn zeta in Hp, Hq. rewrite Nat2Z.id in Hp, Hq. rewrite Hp, Hq.
  rewrite orbit_snoc, !map_app. cbn [map].
  rewrite !index_last_snoc. split; reflexivity.
Qed.

(** C7. For [f(q) = -q] and [0 < dt <= 1], the energy [p^2/2 + q^2/2] of
    every recorded state is within [E0/3 * dt^2] of the initial energy
    [E0], whatever the number of steps. With [dt = 0.01], 10000 steps,
    [p0 = 1], [q0 = 0] the final energy is within [1e-4] of the initial
    one, in exact arithmetic and in binary64. *)
Theorem C7_energy_drift :
  (forall (p0 q0 dt : R) (N : Z) (k : nat),
     0 < dt <= 1 -> (k < Z.to_nat N)%nat ->
     let tr := vv_loop dt N p0 q0 in
     Rabs (energy (nth k (plist tr) 0) (nth k (qlist tr) 0) - energy p0 q0)
     <= energy p0 q0 / 3 * (dt * dt)) /\
  (let tr := vv_loop (1 / 100) 10000 1 0 in
   exists pN qN,
     index_last (plist tr) = Ok pN /\
     index_last (qlist tr) = Ok qN /\
     Rabs (energy pN qN - energy 1 0) <= 1 / 10000) /\
  (tr <- traj_ens 0.01%float 100%float 1%float 0%float ;;
   pN <- index_last (plist tr) ;;
   qN <- index_last (qlist tr) ;;
   Ok (PrimFloat.leb
         (PrimFloat.abs
            (PrimFloat.sub (energy pN qN) (energy 1%float 0%float)))
         1e-4%float))%py = Ok true.
Proof.
  split; [|split].
  - intros p0 q0 dt N k Hdt Hk. cbn zeta.
    pose proof (recorded_nth dt p0 q0 N (S k) ltac:(lia)) as HS.
    cbn [nth] in HS.
    pose proof (energy_drift_iter dt (p0, q0) (S k) Hdt) as Hd.
    cbn zeta in Hd. rewrite <- HS in Hd. exact Hd.
  - cbn zeta. set (tol := 1 / 10000).
    replace 10000%Z with (Z.of_nat (S 9999)) by (vm_compute; reflexivity).
    destruct (last_recorded (1 / 100) 1 0 9999) as (Hp & Hq).
    eexists. eexists. split; [exact Hp|]. split; [exact Hq|].
    pose proof (energy_drift_iter (1 / 100) (1, 0) (S 9999) ltac:(lra)) as Hd.
    cbn zeta in Hd. cbn [fst snd] in Hd.
    eapply Rle_trans; [exact Hd|].
    rewrite energy_R. unfold tol. lra.
  - run_binary64.
Qed.

Lemma C7_energy_drift_witness :
  0 < 1 / 2 <= 1 /\ (1 < Z.to_nat 3)%nat /\
  let tr := vv_loop (1 / 2) 3 1 0 in
  Rabs (energy (nth 1 (plist tr) 0) (nth 1 (qlist tr) 0) - energy 1 0)
  <= energy 1 0 / 3 * (1 / 2 * (1 / 2)).
Proof.
  split; [lra|]. split; [lia|].
  exact (proj1 C7_energy_drift 1 0 (1 / 2) 3%Z 1%nat ltac:(lra) ltac:(lia)).
Defined.

(** ** Energies and matrix elements (cells 12, 13) *)

Lemma Ei_R (i : Z) (omega : R) :
  Ei i omega false = IZR i * omega.
Proof. unfold Ei, hbar. cbn. ring. Qed.

Lemma qij_R (i j : Z) (omega : R) :
  qij i j omega =
  if (i =? j - 1)%Z then sqrt (1 / (2 * omega)) * sqrt (IZR j)
  else if (i =? j + 1)%Z then sqrt (1 / (2 * omega)) * sqrt (IZR (j + 1))
  else 0.
Proof.
  unfold qij, hbar, m. cbn [nmul ndiv nsqrt of_int PyNum_R].
  replace (2 * 1 * omega) with (2 * omega) by ring. reflexivity.
Qed.

Lemma qij_sym (i j : Z) (omega : R) : qij i j omega = qij j i omega.
Proof.
  rewrite !qij_R.
  destruct (Z.eqb_spec i (j - 1)) as [E1|N1];
    destruct (Z.eqb_spec j (i + 1)) as [E2|N2]; try lia.
  - destruct (Z.eqb_spec j (i - 1)); [lia|]. rewrite E2. reflexivity.
  - destruct (Z.eqb_spec i (j + 1)) as [E3|N3];
      destruct (Z.eqb_spec j (i - 1)) as [E4|N4]; try lia.
    + replace (j + 1)%Z with i by lia. reflexivity.
    + reflexivity.
Qed.

Lemma qij_nonneg (i j : Z) (omega : R) : 0 <= qij i j omega.
Proof.
  rewrite qij_R.
  destruct (i =? j - 1)%Z; [|destruct (i =? j + 1)%Z]; try lra;
    apply Rmult_le_pos; apply sqrt_pos.
Qed.

(** C4. For non-negative [i], [j] and [omega > 0]: [qij] is symmetric,
    vanishes unless [|i - j| = 1], and is then
    [sqrt(hbar / (2 m omega)) * sqrt(max(i, j))]; [qij(1, 2)] at the default
    [omega = 1] is [sqrt(1/2) * sqrt(2) = 1] and [qij(0, 0)] is [0]. *)
Theorem C4_qij_matrix_elements :
  (forall (i j : Z) (omega : R),
     (0 <= i)%Z -> (0 <= j)%Z -> 0 < omega ->
     qij i j omega = qij j i omega /\
     (Z.abs (i - j) <> 1%Z -> qij i j omega = 0) /\
     (Z.abs (i - j) = 1%Z ->
      qij i j omega =
      sqrt (hbar / (2 * m * omega)) * sqrt (IZR (Z.max i j)))) /\
  qij 1 2 1 = sqrt (1 / 2) * sqrt 2 /\
  sqrt (1 / 2) * sqrt 2 = 1 /\
  qij 0 0 1 = 0.
Proof.
  split; [|split; [|split]].
  - intros i j omega Hi Hj Ho. split; [apply qij_sym|]. split.
    + intros Hne. rewrite qij_R.
      destruct (Z.eqb_spec i (j - 1)); [lia|].
      destruct (Z.eqb_spec i (j + 1)); [lia|]. reflexivity.
    + intros Hab. unfold qij.
      destruct (Z.eqb_spec i (j - 1)) as [E1|N1].
      * replace (Z.max i j) with j by lia. reflexivity.
      * destruct (Z.eqb_spec i (j + 1)) as [E2|N2]; [|lia].
        replace (Z.max i j) with (j + 1)%Z by lia. reflexivity.
  - rewrite qij_R. cbn [Z.eqb Z.sub Z.add Z.opp Z.pos_sub Pos.pred_double].
    replace (2 * 1) with 2 by ring. reflexivity.
  - rewrite <- sqrt_mult by lra.
    replace (1 / 2 * 2) with 1 by field. apply sqrt_1.
  - rewrite qij_R. reflexivity.
Qed.

Lemma C4_qij_matrix_elements_witness :
  (0 <= 1)%Z /\ (0 <= 2)%Z /\ 0 < 1 /\
  qij 1 2 1 = qij 2 1 1 /\
  (Z.abs (1 - 2) <> 1%Z -> qij 1 2 1 = 0) /\
  (Z.abs (1 - 2) = 1%Z ->
   qij 1 2 1 = sqrt (hbar / (2 * m * 1)) * sqrt (IZR (Z.max 1 2))).
Proof.
  split; [lia|]. split; [lia|]. split; [lra|].
  exact (proj1 C4_qij_matrix_elements 1%Z 2%Z 1 ltac:(lia) ltac:(lia)
           ltac:(lra)).
Defined.

(** The same call in binary64: the two square roots are rounded, and their
    product is one unit in the last place above 1. *)
Remark qij_1_2_binary64 :
  qij 1 2 1%float = 1.0000000000000002%float /\
  PrimFloat.leb
    (PrimFloat.abs (PrimFloat.sub (qij 1 2 1%float) 1%float))
    0x1p-52%float = true /\
  qij 0 0 1%float = 0%float.
Proof. vm_compute. repeat split. Qed.

(** ** The standard correlation function at [t = 0] (cell 17) *)

Lemma fold_left_invariant {A B : Type} (P : A -> Prop) (g : A -> B -> A)
  (l : list B) (a : A) :
  P a -> (forall a b, P a -> P (g a b)) -> P (fold_left g l a).
Proof.
  intros Ha Hg. revert a Ha.
  induction l as [|b l IH]; intros a Ha; cbn; [exact Ha|].
  apply IH. apply Hg. exact Ha.
Qed.

Lemma range_length (n : Z) : length (range n) = Z.to_nat n.
Proof.
  unfold range, range2. rewrite length_map, length_seq. f_equal. lia.
Qed.

Lemma phase_t0 (i j : Z) (omega : R) : phase i j omega 0 = (1, 0).
Proof.
  unfold phase, Cexp, Cdiv, Cmul, Copp, Cj, RtoC, hbar.
  cbn [fst snd of_int PyNum_R].
  replace ((- 0 * (Ei i omega false - Ei j omega false) - - (1) * 0) * 0 -
           (- 0 * 0 + - (1) * (Ei i omega false - Ei j omega false)) * 0)
    with 0 by ring.
  replace ((- 0 * (Ei i omega false - Ei j omega false) - - (1) * 0) * 0 +
           (- 0 * 0 + - (1) * (Ei i omega false - Ei j omega false)) * 0)
    with 0 by ring.
  replace ((0 * 1 + 0 * 0) / (1 * 1 + 0 * 0)) with 0 by field.
  replace ((0 * 1 - 0 * 0) / (1 * 1 + 0 * 0)) with 0 by field.
  rewrite exp_0, cos_0, sin_0. f_equal; ring.
Qed.

Lemma real_nonneg_C0 : real_nonneg C0.
Proof. unfold real_nonneg, C0, RtoC. cbn. split; lra. Qed.

Lemma real_nonneg_add (z w : complex) :
  real_nonneg z -> real_nonneg w -> real_nonneg (Cadd z w).
Proof.
  unfold real_nonneg, Cadd. cbn [fst snd]. intros [Hz1 Hz2] [Hw1 Hw2].
  split; lra.
Qed.

Lemma real_nonneg_scale (z : complex) (a : R) :
  real_nonneg z -> 0 <= a -> real_nonneg (Cmul z (RtoC a)).
Proof.
  unfold real_nonneg, Cmul, RtoC. cbn [fst snd]. intros [Hz1 Hz2] Ha.
  rewrite Hz1. split; [ring|]. nra.
Qed.

Lemma Cqq_std_sumj_t0 (omega : R) (i : Z) :
  real_nonneg (Cqq_std_sumj 0 omega i).
Proof.
  unfold Cqq_std_sumj. apply fold_left_invariant; [apply real_nonneg_C0|].
  intros z j Hz. apply real_nonneg_add; [exact Hz|].
  rewrite phase_t0.
  apply real_nonneg_scale; [apply real_nonneg_scale|]; try apply qij_nonneg.
  unfold real_nonneg. cbn. split; lra.
Qed.

(** [rz] is positive as soon as the outer loop runs once. *)
Lemma Cqq_std_loop_t0 (omega : R) (i_max : Z) :
  (0 <= i_max)%Z ->
  real_nonneg (fst (Cqq_std_loop 0 omega i_max)) /\
  0 < snd (Cqq_std_loop 0 omega i_max).
Proof.
  intros Hi. unfold Cqq_std_loop.
  pose proof (range_length (i_max + 1)) as Hlen.
  destruct (range (i_max + 1)) as [|i0 l]; [cbn in Hlen; lia|].
  cbn [fold_left].
  apply (fold_left_invariant
           (fun acc : complex * R => real_nonneg (fst acc) /\ 0 < snd acc)).
  - cbn [fst snd]. split.
    + apply real_nonneg_add; [apply real_nonneg_C0|].
      apply real_nonneg_scale; [apply Cqq_std_sumj_t0|].
      left. apply exp_pos.
    + pose proof (exp_pos (- beta * Ei i0 omega false)). lra.
  - intros acc i [Hc Hz]. cbn [fst snd]. split.
    + apply real_nonneg_add; [exact Hc|].
      apply real_nonneg_scale; [apply Cqq_std_sumj_t0|].
      left. apply exp_pos.
    + pose proof (exp_pos (- beta * Ei i omega false)). lra.
Qed.

(** C6. For every [i_max >= 1] and [omega > 0], [Cqq_std(0, omega, i_max)]
    is a complex number with zero imaginary part and non-negative real
    part. *)
Theorem C6_Cqq_std_t0_real_nonneg (omega : R) (i_max : Z) :
  (1 <= i_max)%Z -> 0 < omega ->
  exists z : complex,
    Cqq_std (scalar 0) omega i_max = ComplexArr (scalar z) /\
    snd z = 0 /\ 0 <= fst z.
Proof.
  intros Hi Ho. exists (Cqq_std_at 0 omega i_max).
  split.
  - unfold Cqq_std. destruct (Z.gtb_spec i_max 0) as [_|Hn]; [|lia].
    reflexivity.
  - destruct (Cqq_std_loop_t0 omega i_max ltac:(lia)) as [[Him Hre] Hz].
    unfold Cqq_std_at, Cdiv, RtoC. cbn [fst snd].
    set (rc := fst (Cqq_std_loop 0 omega i_max)) in *.
    set (rz := snd (Cqq_std_loop 0 omega i_max)) in *.
    rewrite Him. split.
    + field. lra.
    + replace ((fst rc * rz + 0 * 0) / (rz * rz + 0 * 0))
        with (fst rc / rz) by (field; lra).
      apply Rmult_le_pos; [exact Hre|]. left. apply Rinv_0_lt_compat. exact Hz.
Qed.

Lemma C6_Cqq_std_t0_real_nonneg_witness :
  (1 <= 1)%Z /\ 0 < 2 /\
  exists z : complex,
    Cqq_std (scalar 0) 2 1 = ComplexArr (scalar z) /\
    snd z = 0 /\ 0 <= fst z.
Proof.
  split; [lia|]. split; [lra|].
  exact (C6_Cqq_std_t0_real_nonneg 2 1%Z ltac:(lia) ltac:(lra)).
Defined.

(** ** The Kubo evaluator and its grid (cell 27) *)

Lemma range_cons (n : Z) :
  (0 < n)%Z -> exists l, range n = 0%Z :: l.
Proof.
  intros Hn. unfold range, range2.
  destruct (Z.to_nat (n - 0)) as [|k] eqn:E; [lia|].
  cbn [seq map]. eexists. reflexivity.
Qed.

Lemma linspace_length (start stop : R) (num : Z) :
  (0 <= num)%Z ->
  exists lg, linspace start stop num = Ok lg /\ length lg = Z.to_nat num.
Proof.
  intros Hn. unfold linspace.
  destruct (Z.ltb_spec num 0) as [Hlt|_]; [lia|].
  eexists. split; [reflexivity|].
  rewrite length_map. apply range_length.
Qed.

Lemma fold_left_raise {A B : Type} (g : result A -> B -> result A)
  (l : list B) (e : pyerr) :
  (forall b, g (Raise e) b = Raise e) ->
  fold_left g l (Raise e) = Raise e.
Proof.
  intros Hg. induction l as [|b l IH]; cbn; [reflexivity|].
  rewrite Hg. exact IH.
Qed.

(** On a grid with at least two points [lterm] is computed. *)
Lemma Cqq_kubo_lterm_ok (lg : list R) (i j : Z) :
  (2 <= length lg)%nat -> exists x, Cqq_kubo_lterm lg i j = Ok x.
Proof.
  intros Hl. destruct lg as [|a [|b lg]]; cbn in Hl; try lia.
  unfold Cqq_kubo_lterm, index. cbn [nth_error bind].
  eexists. reflexivity.
Qed.

(** On a grid with fewer than two points [lgrid[1]] is out of range. *)
Lemma Cqq_kubo_lterm_short (lg : list R) (i j : Z) :
  (length lg < 2)%nat -> Cqq_kubo_lterm lg i j = Raise IndexError.
Proof.
  intros Hl. destruct lg as [|a [|b lg]]; cbn in Hl; try lia; reflexivity.
Qed.

Lemma Cqq_kubo_inner_ok (lg : list R) (i : Z) (rcqq : R -> complex) :
  (2 <= length lg)%nat -> exists r, Cqq_kubo_inner lg i rcqq = Ok r.
Proof.
  intros Hl. unfold Cqq_kubo_inner.
  generalize (range (i + 2)). intros l. revert rcqq.
  induction l as [|j l IH]; intros rcqq; cbn [fold_left].
  - eexists. reflexivity.
  - destruct (Cqq_kubo_lterm_ok lg i j Hl) as (x & Hx).
    cbn [bind]. rewrite Hx. cbn [bind]. apply IH.
Qed.

Lemma Cqq_kubo_inner_short (lg : list R) (i : Z) (rcqq : R -> complex) :
  (length lg < 2)%nat -> (0 <= i)%Z ->
  Cqq_kubo_inner lg i rcqq = Raise IndexError.
Proof.
  intros Hl Hi. unfold Cqq_kubo_inner.
  destruct (range_cons (i + 2) ltac:(lia)) as (l & El). rewrite El.
  cbn [fold_left bind]. rewrite (Cqq_kubo_lterm_short lg i 0 Hl).
  cbn [bind]. apply fold_left_raise. reflexivity.
Qed.

Lemma Cqq_kubo_loop_ok (lg : list R) (i_max : Z) :
  (2 <= length lg)%nat -> exists st, Cqq_kubo_loop lg i_max = Ok st.
Proof.
  intros Hl. unfold Cqq_kubo_loop.
  generalize (range (i_max + 1)). intros l.
  generalize (fun _ : R => C0, 0). revert l.
  induction l as [|i l IH]; intros st; cbn [fold_left].
  - eexists. reflexivity.
  - cbn [bind].
    destruct (Cqq_kubo_inner_ok lg i (fst st) Hl) as (r & Hr).
    rewrite Hr. cbn [bind]. apply IH.
Qed.

Lemma Cqq_kubo_loop_short (lg : list R) (i_max : Z) :
  (length lg < 2)%nat -> (0 <= i_max)%Z ->
  Cqq_kubo_loop lg i_max = Raise IndexError.
Proof.
  intros Hl Hi. unfold Cqq_kubo_loop.
  destruct (range_cons (i_max + 1) ltac:(lia)) as (l & El). rewrite El.
  cbn [fold_left bind fst].
  rewrite (Cqq_kubo_inner_short lg 0 _ Hl ltac:(lia)).
  cbn [bind]. apply fold_left_raise. reflexivity.
Qed.

Lemma zeros_like_times_0 (t : ndarray R) :
  zeros_like t (RealArr (nd_map (fun tk => tk * 0) t)).
Proof.
  unfold zeros_like. eexists. split; [reflexivity|].
  unfold nd_map. cbn [shape data]. split; [reflexivity|].
  split; [apply length_map|].
  apply Forall_forall. intros x Hx.
  apply in_map_iff in Hx. destruct Hx as (tk & <- & _). ring.
Qed.

(** C3. For every time array [t], with [i_max = 0] both evaluators return
    the real array [t * 0]: all zeros, with the shape of [t]. For
    [Cqq_kubo] this holds on every grid of at least two points, the
    default [lgrid = 1000] included. *)
Theorem C3_zero_at_i_max_0 :
  (forall (t : ndarray R) (omega : R), zeros_like t (Cqq_std t omega 0)) /\
  (forall (t : ndarray R) (omega : R) (lgrid : Z),
     (2 <= lgrid)%Z ->
     exists v, Cqq_kubo t omega 0 lgrid = Ok v /\ zeros_like t v) /\
  (forall t : ndarray R,
     exists v, Cqq_kubo t 1 0 1000 = Ok v /\ zeros_like t v).
Proof.
  assert (Hk : forall (t : ndarray R) (omega : R) (lgrid : Z),
             (2 <= lgrid)%Z ->
             exists v, Cqq_kubo t omega 0 lgrid = Ok v /\ zeros_like t v).
  { intros t omega lgrid Hl. unfold Cqq_kubo.
    destruct (linspace_length 0 beta lgrid ltac:(lia)) as (lg & Hlg & Hlen).
    rewrite Hlg. cbn [bind].
    destruct (Cqq_kubo_loop_ok lg 0 ltac:(lia)) as (st & Hst).
    rewrite Hst. cbn [bind]. eexists. split; [reflexivity|].
    change (0 >? 0)%Z with false. cbn iota. apply zeros_like_times_0. }
  split; [|split].
  - intros t omega. unfold Cqq_std. change (0 >? 0)%Z with false. cbn iota.
    apply zeros_like_times_0.
  - exact Hk.
  - intros t. apply Hk. lia.
Qed.

Lemma C3_zero_at_i_max_0_witness :
  (2 <= 2)%Z /\
  exists v,
    Cqq_kubo (mk_nd [2%nat] [1; 2]) 1 0 2 = Ok v /\
    zeros_like (mk_nd [2%nat] [1; 2]) v.
Proof.
  split; [lia|].
  exact (proj1 (proj2 C3_zero_at_i_max_0) (mk_nd [2%nat] [1; 2]) 1 2%Z
           ltac:(lia)).
Defined.

(** C10. With [lgrid = 1] the grid has one point, [lgrid[1]] raises
    [IndexError] in the first pass of the inner loop, and [Cqq_kubo]
    returns nothing, for every [t] and every [i_max >= 0], [i_max = 0]
    included. *)
Theorem C10_kubo_one_point_grid (t : ndarray R) (omega : R) (i_max : Z) :
  (0 <= i_max)%Z -> Cqq_kubo t omega i_max 1 = Raise IndexError.
Proof.
  intros Hi. unfold Cqq_kubo.
  destruct (linspace_length 0 beta 1 ltac:(lia)) as (lg & Hlg & Hlen).
  rewrite Hlg. cbn [bind].
  change (Z.to_nat 1) with 1%nat in Hlen.
  rewrite (Cqq_kubo_loop_short lg i_max ltac:(lia) Hi). reflexivity.
Qed.

Lemma C10_kubo_one_point_grid_witness :
  (0 <= 0)%Z /\ Cqq_kubo (scalar 0) 1 0 1 = Raise IndexError.
Proof.
  split; [lia|].
  exact (C10_kubo_one_point_grid (scalar 0) 1 0%Z ltac:(lia)).
Defined.

(** ** [Cqq_std] against the reference sum *)

Ltac complex_ring :=
  unfold C0, Cadd, Cmul, Cdiv, RtoC, Rdiv; cbn [fst snd]; f_equal; ring.

Lemma Cmul_real_real (z : complex) (a b : R) :
  Cmul (Cmul z (RtoC a)) (RtoC b) = Cmul z (RtoC (a * b)).
Proof. complex_ring. Qed.

Lemma Cmul_real_scaled (z : complex) (c x : R) :
  Cmul z (RtoC (c * x)) = Cmul (RtoC c) (Cmul z (RtoC x)).
Proof. complex_ring. Qed.

Lemma Cmul_scale_real (z : complex) (c e : R) :
  Cmul (Cmul (RtoC c) z) (RtoC e) = Cmul (RtoC c) (Cmul z (RtoC e)).
Proof. complex_ring. Qed.

Lemma Cmul_add_distr (c z w : complex) :
  Cmul c (Cadd z w) = Cadd (Cmul c z) (Cmul c w).
Proof. complex_ring. Qed.

Lemma Cmul_C0 (c : R) : Cmul (RtoC c) C0 = C0.
Proof. complex_ring. Qed.

Lemma Cdiv_scale (c : R) (z w : complex) :
  Cdiv (Cmul (RtoC c) z) w = Cmul (RtoC c) (Cdiv z w).
Proof. complex_ring. Qed.

Lemma fold_left_rel {A A' B : Type} (P : A -> A' -> Prop)
  (g : A -> B -> A) (g' : A' -> B -> A') (l : list B) (a : A) (a' : A') :
  P a a' -> (forall a a' b, P a a' -> P (g a b) (g' a' b)) ->
  P (fold_left g l a) (fold_left g' l a').
Proof.
  intros Ha Hg. revert a a' Ha.
  induction l as [|b l IH]; intros a a' Ha; cbn; [exact Ha|].
  apply IH. apply Hg. exact Ha.
Qed.

(** The product of matrix elements at the default [omega = 1] is [omega]
    times the product at [omega]. *)
Lemma qij_default_product (i j : Z) (omega : R) :
  0 < omega ->
  qij i j 1 * qij j i 1 = omega * (qij i j omega * qij j i omega).
Proof.
  intros Ho.
  assert (H1 : sqrt (1 / (2 * 1)) * sqrt (1 / (2 * 1)) = 1 / 2).
  { replace (1 / (2 * 1)) with (1 / 2) by field. apply sqrt_sqrt. lra. }
  assert (Hw : sqrt (1 / (2 * omega)) * sqrt (1 / (2 * omega)) =
               1 / (2 * omega)).
  { apply sqrt_sqrt. apply Rlt_le. apply Rdiv_lt_0_compat; lra. }
  rewrite <- (qij_sym i j 1), <- (qij_sym i j omega), !qij_R.
  destruct (i =? j - 1)%Z; [|destruct (i =? j + 1)%Z]; try ring.
  - transitivity (sqrt (1 / (2 * 1)) * sqrt (1 / (2 * 1)) *
                  (sqrt (IZR j) * sqrt (IZR j))); [ring|].
    transitivity (omega * (sqrt (1 / (2 * omega)) * sqrt (1 / (2 * omega))) *
                  (sqrt (IZR j) * sqrt (IZR j))); [|ring].
    rewrite H1, Hw. field. lra.
  - transitivity (sqrt (1 / (2 * 1)) * sqrt (1 / (2 * 1)) *
                  (sqrt (IZR (j + 1)) * sqrt (IZR (j + 1)))); [ring|].
    transitivity (omega * (sqrt (1 / (2 * omega)) * sqrt (1 / (2 * omega))) *
                  (sqrt (IZR (j + 1)) * sqrt (IZR (j + 1)))); [|ring].
    rewrite H1, Hw. field. lra.
Qed.

Lemma Cqq_std_sumj_reference (t omega : R) (i : Z) :
  0 < omega ->
  Cqq_std_sumj t omega i = Cmul (RtoC omega) (Cqq_reference_sumj t omega i).
Proof.
  intros Ho. unfold Cqq_std_sumj, Cqq_reference_sumj.
  apply (fold_left_rel (fun z z' : complex => z = Cmul (RtoC omega) z')).
  - symmetry. apply Cmul_C0.
  - intros z z' j ->.
    rewrite !Cmul_real_real, (qij_default_product i j omega Ho).
    rewrite Cmul_real_scaled, Cmul_add_distr. reflexivity.
Qed.

(** What [Cqq_std] computes: [omega] times the reference sum. *)
Lemma Cqq_std_at_reference (t omega : R) (i_max : Z) :
  0 < omega ->
  Cqq_std_at t omega i_max = Cmul (RtoC omega) (Cqq_reference t omega i_max).
Proof.
  intros Ho. unfold Cqq_std_at, Cqq_reference, Cqq_std_loop.
  rewrite <- Cdiv_scale. f_equal.
  - apply (fold_left_rel
             (fun (acc : complex * R) (rc : complex) =>
                fst acc = Cmul (RtoC omega) rc)).
    + cbn [fst]. symmetry. apply Cmul_C0.
    + intros acc rc i E. cbn [fst]. rewrite E.
      rewrite (Cqq_std_sumj_reference t omega i Ho).
      rewrite Cmul_scale_real, Cmul_add_distr. reflexivity.
  - f_equal.
    apply (fold_left_rel (fun (acc : complex * R) (rz : R) => snd acc = rz)).
    + reflexivity.
    + intros acc rz i E. cbn [snd]. rewrite E. reflexivity.
Qed.

Lemma Cqq_std_sumj_t0_ground (omega : R) :
  fst (Cqq_std_sumj 0 omega 0) = 1 / 2.
Proof.
  unfold Cqq_std_sumj.
  change (range2 0 (0 + 2)) with [0%Z; 1%Z]. cbn [fold_left].
  rewrite !phase_t0, !qij_R.
  change (0 =? 0 - 1)%Z with false. change (0 =? 0 + 1)%Z with false.
  change (0 =? 1 - 1)%Z with true. change (1 =? 0 - 1)%Z with false.
  change (1 =? 0 + 1)%Z with true. cbn iota.
  change (0 + 1)%Z with 1%Z.
  unfold Cadd, Cmul, C0, RtoC. cbn [fst snd].
  assert (H1 : sqrt (1 / (2 * 1)) * sqrt (1 / (2 * 1)) = 1 / 2).
  { replace (1 / (2 * 1)) with (1 / 2) by field. apply sqrt_sqrt. lra. }
  assert (H2 : sqrt 1 * sqrt 1 = 1) by (apply sqrt_sqrt; lra).
  transitivity (sqrt (1 / (2 * 1)) * sqrt (1 / (2 * 1)) * (sqrt 1 * sqrt 1));
    [ring|].
  rewrite H1, H2. ring.
Qed.

(** At [t = 0] the value returned by [Cqq_std] is positive. *)
Lemma Cqq_std_at_t0_pos (omega : R) (i_max : Z) :
  (0 <= i_max)%Z -> 0 < fst (Cqq_std_at 0 omega i_max).
Proof.
  intros Hi.
  assert (Hinv : real_nonneg (fst (Cqq_std_loop 0 omega i_max)) /\
                 0 < fst (fst (Cqq_std_loop 0 omega i_max)) /\
                 0 < snd (Cqq_std_loop 0 omega i_max)).
  { unfold Cqq_std_loop.
    destruct (range_cons (i_max + 1) ltac:(lia)) as (l & El). rewrite El.
    cbn [fold_left].
    apply (fold_left_invariant
             (fun acc : complex * R =>
                real_nonneg (fst acc) /\ 0 < fst (fst acc) /\ 0 < snd acc)).
    - cbn [fst snd].
      pose proof (exp_pos (- beta * Ei 0 omega false)) as He.
      pose proof (Cqq_std_sumj_t0 omega 0) as [Him Hre].
      pose proof (Cqq_std_sumj_t0_ground omega) as Hg.
      split; [|split].
      + apply real_nonneg_add; [apply real_nonneg_C0|].
        apply real_nonneg_scale; [split; assumption|lra].
      + unfold Cadd, Cmul, C0, RtoC. cbn [fst snd]. rewrite Hg, Him. nra.
      + lra.
    - intros acc i (Hc & Hp & Hz). cbn [fst snd].
      pose proof (exp_pos (- beta * Ei i omega false)) as He.
      assert (Hs : real_nonneg
                     (Cmul (Cqq_std_sumj 0 omega i)
                           (RtoC (exp (- beta * Ei i omega false))))).
      { apply real_nonneg_scale; [apply Cqq_std_sumj_t0|lra]. }
      split; [|split].
      + apply real_nonneg_add; assumption.
      + destruct Hs as [_ Hs]. unfold Cadd. cbn [fst]. lra.
      + lra. }
  destruct Hinv as ([Him _] & Hp & Hz).
  unfold Cqq_std_at, Cdiv, RtoC. cbn [fst snd]. rewrite Him.
  set (rc := fst (fst (Cqq_std_loop 0 omega i_max))) in *.
  set (rz := snd (Cqq_std_loop 0 omega i_max)) in *.
  replace ((rc * rz + 0 * 0) / (rz * rz + 0 * 0)) with (rc / rz)
    by (field; lra).
  apply Rdiv_lt_0_compat; assumption.
Qed.

(** C2 (defect). At [t = 0], [omega = 2], [i_max = 1] the value returned by
    [Cqq_std] is not the reference sum: it is twice that sum, because
    [qij] is called without [omega]. [Cqq_kubo] returns the same result
    for every [omega]. *)
Theorem C2_Cqq_std_misses_omega :
  Cqq_std (scalar 0) 2 1 = ComplexArr (scalar (Cqq_std_at 0 2 1)) /\
  Cqq_std_at 0 2 1 = Cmul (RtoC 2) (Cqq_reference 0 2 1) /\
  Cqq_std_at 0 2 1 <> Cqq_reference 0 2 1 /\
  (forall (t : ndarray R) (omega omega' : R) (i_max lgrid : Z),
     Cqq_kubo t omega i_max lgrid = Cqq_kubo t omega' i_max lgrid).
Proof.
  split; [reflexivity|]. split; [apply Cqq_std_at_reference; lra|].
  split; [|reflexivity].
  pose proof (Cqq_std_at_reference 0 2 1 ltac:(lra)) as E.
  pose proof (Cqq_std_at_t0_pos 2 1 ltac:(lia)) as Hp.
  intros Heq. rewrite Heq in E, Hp.
  apply (f_equal fst) in E. unfold Cmul, RtoC in E. cbn [fst snd] in E.
  lra.
Qed.

(** ** The Boltzmann weight (cell 62) *)

Lemma np_add_same_length (a b : list R) :
  length a = length b ->
  np_add a b = Ok (map (fun ab => fst ab + snd ab) (combine a b)).
Proof.
  intros E. unfold np_add. rewrite E, Nat.eqb_refl. reflexivity.
Qed.

(** C9. [boltzweight(p, q, beta)] does not read [p] and [q]: two calls with
    the same [beta] and the same globals return the same result whatever
    their first two arguments are, and when the globals [ps] and [qs] are
    bound to arrays of one length that result is
    [exp(-beta * (ps^2/2 + qs^2/2))], entry by entry. *)
Theorem C9_boltzweight_reads_globals :
  forall (A B A' B' : Type) (g : globals)
         (p : A) (q : B) (p' : A') (q' : B') (b : R),
    boltzweight g p q b = boltzweight g p' q' b /\
    forall ps_ qs_ : list R,
      ps g = Some ps_ -> qs g = Some qs_ -> length ps_ = length qs_ ->
      boltzweight g p q b =
      Ok (map (fun pq => exp (- b * (fst pq ^ 2 / 2 + snd pq ^ 2 / 2)))
              (combine ps_ qs_)).
Proof.
  intros A B A' B' g p q p' q' b. split; [reflexivity|].
  intros ps_ qs_ Hp Hq Hl. unfold boltzweight. rewrite Hp, Hq.
  cbn [lookup bind].
  rewrite np_add_same_length by (rewrite !length_map; exact Hl).
  cbn [bind]. f_equal.
  rewrite map_map. clear Hp Hq. revert qs_ Hl.
  induction ps_ as [|x ps_ IH]; intros [|y qs_] Hl; cbn in Hl |- *;
    try reflexivity; try discriminate.
  f_equal. apply IH. lia.
Qed.

Lemma C9_boltzweight_reads_globals_witness :
  let g := mk_globals (Some [1; 2]) (Some [3; 4]) in
  ps g = Some [1; 2] /\ qs g = Some [3; 4] /\
  length [1; 2] = length [3; 4] /\
  boltzweight g 0 0 1 = boltzweight g [5] true 1 /\
  boltzweight g 0 0 1 =
  Ok (map (fun pq => exp (- 1 * (fst pq ^ 2 / 2 + snd pq ^ 2 / 2)))
          (combine [1; 2] [3; 4])).
Proof.
  cbn zeta. split; [reflexivity|]. split; [reflexivity|].
  split; [reflexivity|].
  pose proof (C9_boltzweight_reads_globals R R (list R) bool
                (mk_globals (Some [1; 2]) (Some [3; 4]))
                0 0 [5] true 1) as [H1 H2].
  split; [exact H1|].
  exact (H2 [1; 2] [3; 4] eq_refl eq_refl eq_refl).
Defined.

(** * Further properties of the notebook's code *)

(** ** The integrator as a linear, area-preserving map (cells 48, 50) *)

Lemma vv_step_add (dt : R) (s a : R * R) :
  vv_step dt (fst s + fst a, snd s + snd a) =
  (fst (vv_step dt s) + fst (vv_step dt a),
   snd (vv_step dt s) + snd (vv_step dt a)).
Proof.
  destruct s as [p q], a as [u v]. cbn [fst snd].
  rewrite !vv_step_R. cbn [fst snd]. f_equal; field.
Qed.

Lemma vv_iter_add (dt : R) (n : nat) (s a : R * R) :
  Nat.iter n (vv_step dt) (fst s + fst a, snd s + snd a) =
  (fst (Nat.iter n (vv_step dt) s) + fst (Nat.iter n (vv_step dt) a),
   snd (Nat.iter n (vv_step dt) s) + snd (Nat.iter n (vv_step dt) a)).
Proof.
  induction n as [|n IH]; [reflexivity|].
  rewrite !Nat.iter_succ, IH. apply vv_step_add.
Qed.

Lemma vv_step_wedge (dt : R) (a b : R * R) :
  fst (vv_step dt a) * snd (vv_step dt b) -
  snd (vv_step dt a) * fst (vv_step dt b) =
  fst a * snd b - snd a * fst b.
Proof.
  destruct a as [u v], b as [x y]. rewrite !vv_step_R. cbn [fst snd]. field.
Qed.

Lemma vv_iter_wedge (dt : R) (n : nat) (a b : R * R) :
  fst (Nat.iter n (vv_step dt) a) * snd (Nat.iter n (vv_step dt) b) -
  snd (Nat.iter n (vv_step dt) a) * fst (Nat.iter n (vv_step dt) b) =
  fst a * snd b - snd a * fst b.
Proof.
  induction n as [|n IH]; [reflexivity|].
  rewrite !Nat.iter_succ, vv_step_wedge. exact IH.
Qed.

Lemma vv_loop_final (dt p0 q0 : R) (N : Z) :
  (cur_p (vv_loop dt N p0 q0), cur_q (vv_loop dt N p0 q0)) =
  Nat.iter (Z.to_nat N) (vv_step dt) (p0, q0).
Proof. apply (vv_loop_spec dt p0 q0 N). Qed.

(** X1. In exact arithmetic one pass of the loop is the update the
    notebook summarises in cell 50, [q' = q + p dt + f(q) dt^2 / 2] and
    [p' = p + (f(q) + f(q')) dt / 2]; and a whole run of any length is a
    linear map of the initial state that preserves phase-space area: the
    final states of runs from [s + a] and [s + b] differ from the one from
    [s] by vectors spanning the same signed area as [a] and [b]. *)
Theorem X1_loop_is_area_preserving :
  (forall dt p q : R,
     let q' := q + p * dt + f q * (dt * dt) / 2 in
     vv_step dt (p, q) = (p + (f q + f q') * dt / 2, q')) /\
  (forall (dt : R) (N : Z) (p q u v x y : R),
     let final := fun p0 q0 =>
       (cur_p (vv_loop dt N p0 q0), cur_q (vv_loop dt N p0 q0)) in
     let du := fst (final (p + u) (q + v)) - fst (final p q) in
     let dv := snd (final (p + u) (q + v)) - snd (final p q) in
     let dx := fst (final (p + x) (q + y)) - fst (final p q) in
     let dy := snd (final (p + x) (q + y)) - snd (final p q) in
     du * dy - dv * dx = u * y - v * x).
Proof.
  split.
  - intros dt p q. cbn zeta. rewrite vv_step_R. unfold f.
    cbn [nneg PyNum_R]. f_equal; field.
  - intros dt N p q u v x y. cbn beta zeta. rewrite !vv_loop_final.
    rewrite (vv_iter_add dt _ (p, q) (u, v)).
    rewrite (vv_iter_add dt _ (p, q) (x, y)).
    cbn [fst snd].
    pose proof (vv_iter_wedge dt (Z.to_nat N) (u, v) (x, y)) as Hw.
    cbn [fst snd] in Hw.
    set (A := Nat.iter (Z.to_nat N) (vv_step dt) (u, v)) in *.
    set (B := Nat.iter (Z.to_nat N) (vv_step dt) (x, y)) in *.
    set (S0 := Nat.iter (Z.to_nat N) (vv_step dt) (p, q)) in *.
    rewrite <- Hw. ring.
Qed.

(** ** The conserved quantity and bounded orbits (cell 48) *)

(** X2. For [f(q) = -q], in exact arithmetic every recorded state has the
    same value of [p^2 + (1 - dt^2/4) q^2] as the initial state; hence for
    [0 < dt < 2] the recorded positions and momenta stay bounded for any
    number of steps: [(1 - dt^2/4) q_k^2] and [p_k^2] are at most
    [p0^2 + (1 - dt^2/4) q0^2]. *)
Theorem X2_shadow_energy_conserved (dt p0 q0 : R) (N : Z) (k : nat) :
  (k < Z.to_nat N)%nat ->
  let tr := vv_loop dt N p0 q0 in
  let pk := nth k (plist tr) 0 in
  let qk := nth k (qlist tr) 0 in
  pk * pk + (1 - dt * dt / 4) * (qk * qk) =
  p0 * p0 + (1 - dt * dt / 4) * (q0 * q0) /\
  (0 < dt < 2 ->
   (1 - dt * dt / 4) * (qk * qk) <= p0 * p0 + (1 - dt * dt / 4) * (q0 * q0) /\
   pk * pk <= p0 * p0 + (1 - dt * dt / 4) * (q0 * q0)).
Proof.
  intros Hk. cbn zeta.
  pose proof (recorded_nth dt p0 q0 N (S k) ltac:(lia)) as HS.
  cbn [nth] in HS.
  pose proof (shadow_iter dt (S k) (p0, q0)) as Hs.
  rewrite <- HS in Hs. unfold shadow in Hs. cbn [fst snd] in Hs.
  split; [exact Hs|].
  intros Hdt.
  set (pk := nth k (plist (vv_loop dt N p0 q0)) 0) in *.
  set (qk := nth k (qlist (vv_loop dt N p0 q0)) 0) in *.
  assert (Hc : 0 < 1 - dt * dt / 4) by nra.
  split; nra.
Qed.

Lemma X2_shadow_energy_conserved_witness :
  (2 < Z.to_nat 5)%nat /\ 0 < 1 < 2 /\
  let tr := vv_loop 1 5 1 0 in
  let pk := nth 2 (plist tr) 0 in
  let qk := nth 2 (qlist tr) 0 in
  pk * pk + (1 - 1 * 1 / 4) * (qk * qk) =
  1 * 1 + (1 - 1 * 1 / 4) * (0 * 0) /\
  (1 - 1 * 1 / 4) * (qk * qk) <= 1 * 1 + (1 - 1 * 1 / 4) * (0 * 0) /\
  pk * pk <= 1 * 1 + (1 - 1 * 1 / 4) * (0 * 0).
Proof.
  split; [lia|]. split; [lra|].
  destruct (X2_shadow_energy_conserved 1 1 0 5%Z 2%nat ltac:(lia))
    as [He Hb].
  split; [exact He|]. apply Hb. lra.
Defined.

(** ** More on the reversed run (cell 67) *)

Lemma vv_iter_flip (dt : R) (n : nat) (s : R * R) :
  Nat.iter n (vv_step dt) (flip (Nat.iter n (vv_step dt) s)) = flip s.
Proof.
  induction n as [|n IH]; [reflexivity|].
  rewrite Nat.iter_succ_r, (Nat.iter_succ n), vv_step_flip. exact IH.
Qed.

Lemma map_fst_flip (l : list (R * R)) :
  map fst (map flip l) = map Ropp (map fst l).
Proof. rewrite !map_map. apply map_ext. intros [p q]. reflexivity. Qed.

(** X3. In exact arithmetic, after a forward run of [N >= 1] steps the
    reversed run of cell 67 ends where the forward run started, with the
    momentum negated; its momentum list read backwards is the negated
    forward momenta delayed by one step ([-p_0, ..., -p_{N-1}]), and its
    force list read backwards is [f(q_0), ..., f(q_{N-1})]. *)
Theorem X3_reversed_run_returns (p0 q0 dt : R) (N : Z) :
  (1 <= N)%Z ->
  let fwd := vv_loop dt N p0 q0 in
  exists inv,
    inv_traj_ens dt N fwd = Ok inv /\
    cur_p inv = - p0 /\ cur_q inv = q0 /\
    reversed (plist inv) = removelast (- p0 :: map Ropp (plist fwd)) /\
    reversed (flist inv) = removelast (f q0 :: flist fwd).
Proof.
  intros HN. cbn zeta.
  destruct (Z.to_nat N) as [|n] eqn:En; [lia|].
  assert (HNn : N = Z.of_nat (S n)) by lia. rewrite HNn. clear HNn En HN.
  destruct (vv_loop_spec dt p0 q0 (Z.of_nat (S n))) as (_ & Hp & Hq & Hf).
  cbn zeta in Hp, Hq, Hf. rewrite Nat2Z.id in Hp, Hq, Hf.
  unfold inv_traj_ens. rewrite Hp, Hq, Hf.
  rewrite (orbit_snoc dt n (p0, q0)), !map_app. cbn [map].
  rewrite !index_last_snoc. cbn [bind].
  eexists. split; [reflexivity|].
  set (sN := Nat.iter (S n) (vv_step dt) (p0, q0)).
  destruct (vv_loop_spec dt (nneg (fst sN)) (snd sN) (Z.of_nat (S n)))
    as (Hc' & Hp' & Hq' & Hf').
  cbn zeta in Hc', Hp', Hq', Hf'. rewrite Nat2Z.id in Hc', Hp', Hq', Hf'.
  change (nneg (fst sN), snd sN) with (flip sN) in Hc', Hp', Hq', Hf'.
  unfold sN in Hc', Hp', Hq', Hf'.
  rewrite vv_iter_flip in Hc'. rewrite orbit_flip in Hp', Hf'.
  injection Hc' as Hcp Hcq.
  split; [exact Hcp|]. split; [exact Hcq|].
  subst sN. rewrite !reversed_rev, Hp', Hf'.
  set (sN := Nat.iter (S n) (vv_step dt) (p0, q0)). split.
  - rewrite map_fst_flip, <- !map_rev, rev_involutive.
    change (- p0 :: map Ropp (map fst (orbit dt n (p0, q0))) ++ [- fst sN])
      with ((- p0 :: map Ropp (map fst (orbit dt n (p0, q0)))) ++
            [- fst sN]).
    rewrite removelast_last. reflexivity.
  - rewrite <- !map_rev, rev_involutive, map_map.
    change (f q0 :: map (fun x => f (snd x)) (orbit dt n (p0, q0)) ++
              [f (snd sN)])
      with ((f q0 :: map (fun x => f (snd x)) (orbit dt n (p0, q0))) ++
              [f (snd sN)]).
    rewrite removelast_last. reflexivity.
Qed.

Lemma X3_reversed_run_returns_witness :
  (1 <= 4)%Z /\
  let fwd := vv_loop (1 / 2) 4 1 0 in
  exists inv,
    inv_traj_ens (1 / 2) 4 fwd = Ok inv /\
    cur_p inv = - 1 /\ cur_q inv = 0 /\
    reversed (plist inv) = removelast (- 1 :: map Ropp (plist fwd)) /\
    reversed (flist inv) = removelast (f 0 :: flist fwd).
Proof.
  split; [lia|].
  exact (X3_reversed_run_returns 1 0 (1 / 2) 4%Z ltac:(lia)).
Defined.

(** ** When the reversed run can start (cell 67) *)

Section ReversedRunStart.
Context {F : Type} `{PyNum F}.

Lemma vv_loop_empty (dt p0 q0 : F) (N : Z) :
  (N <= 0)%Z ->
  plist (vv_loop dt N p0 q0) = [] /\ qlist (vv_loop dt N p0 q0) = [].
Proof.
  intros HN. unfold vv_loop.
  replace (Z.to_nat N) with 0%nat by lia. split; reflexivity.
Qed.

(** X4. In either number model, [plist[-1]] makes cell 67 raise
    [IndexError] when the forward run recorded nothing (a step count of
    zero or less); after a forward run of at least one step the reversed
    run starts, and it records as many states as its own step count. *)
Theorem X4_reversed_run_needs_a_step (dt p0 q0 : F) (N M : Z) :
  ((N <= 0)%Z ->
   inv_traj_ens dt M (vv_loop dt N p0 q0) = Raise IndexError) /\
  ((1 <= N)%Z ->
   exists inv,
     inv_traj_ens dt M (vv_loop dt N p0 q0) = Ok inv /\
     length (plist inv) = Z.to_nat M /\
     length (qlist inv) = Z.to_nat M /\
     length (flist inv) = Z.to_nat M).
Proof.
  split.
  - intros HN. destruct (vv_loop_empty dt p0 q0 N HN) as [Hp Hq].
    unfold inv_traj_ens. rewrite Hp. reflexivity.
  - intros HN.
    destruct (Z.to_nat N) as [|n] eqn:En; [lia|].
    destruct (vv_loop_spec dt p0 q0 N) as (_ & Hp & Hq & _).
    cbn zeta in Hp, Hq. rewrite En in Hp, Hq.
    unfold inv_traj_ens. rewrite Hp, Hq, orbit_snoc, !map_app. cbn [map].
    rewrite !index_last_snoc. cbn [bind].
    eexists. split; [reflexivity|]. apply recorded_lengths.
Qed.

End ReversedRunStart.

Lemma X4_reversed_run_needs_a_step_witness :
  (0 <= 0)%Z /\
  inv_traj_ens 0.01%float 3 (vv_loop 0.01%float 0 1%float 0%float) =
  Raise IndexError /\
  (1 <= 2)%Z /\
  exists inv,
    inv_traj_ens 0.01%float 3 (vv_loop 0.01%float 2 1%float 0%float) =
    Ok inv /\
    length (plist inv) = Z.to_nat 3 /\
    length (qlist inv) = Z.to_nat 3 /\
    length (flist inv) = Z.to_nat 3.
Proof.
  split; [lia|]. split.
  - exact (proj1 (X4_reversed_run_needs_a_step
                    0.01%float 1%float 0%float 0%Z 3%Z) ltac:(lia)).
  - split; [lia|].
    exact (proj2 (X4_reversed_run_needs_a_step
                    0.01%float 1%float 0%float 2%Z 3%Z) ltac:(lia)).
Defined.

(** ** The ensemble cells (cells 48 and 67 as a whole) *)

Lemma range2_nil (lo hi : Z) : (hi <= lo)%Z -> range2 lo hi = [].
Proof.
  intros Hl. unfold range2. replace (Z.to_nat (hi - lo)) with 0%nat by lia.
  reflexivity.
Qed.

Lemma range2_cons (lo hi : Z) :
  (lo < hi)%Z -> range2 lo hi = lo :: range2 (lo + 1) hi.
Proof.
  intros Hl. unfold range2.
  replace (Z.to_nat (hi - lo)) with (S (Z.to_nat (hi - (lo + 1)))) by lia.
  cbn [seq map]. f_equal; [lia|].
  rewrite <- seq_shift, map_map. apply map_ext. intros k. lia.
Qed.

Lemma range2_app (lo mid hi : Z) :
  (lo <= mid <= hi)%Z -> range2 lo hi = range2 lo mid ++ range2 mid hi.
Proof.
  intros Hm.
  remember (Z.to_nat (mid - lo)) as k eqn:Ek. revert lo Hm Ek.
  induction k as [|k IH]; intros lo Hm Ek.
  - assert (lo = mid) by lia. subst lo.
    rewrite (range2_nil mid mid) by lia. reflexivity.
  - rewrite (range2_cons lo hi), (range2_cons lo mid) by lia.
    cbn [app]. f_equal. apply IH; lia.
Qed.

Lemma range2_In (lo hi j : Z) : In j (range2 lo hi) <-> (lo <= j < hi)%Z.
Proof.
  unfold range2. rewrite in_map_iff. split.
  - intros (k & <- & Hk). apply in_seq in Hk. lia.
  - intros Hj. exists (Z.to_nat (j - lo)). split; [lia|].
    apply in_seq. lia.
Qed.

Lemma dict_get_set {V : Type} (d : list (Z * V)) (k j : Z) (v : V) :
  dict_get (dict_set d k v) j =
  if (k =? j)%Z then Some v else dict_get d j.
Proof.
  induction d as [|[k' v'] d IH]; cbn [dict_set dict_get].
  - reflexivity.
  - destruct (Z.eqb_spec k' k) as [E|N]; cbn [dict_get].
    + subst k'. destruct (Z.eqb_spec k j); reflexivity.
    + destruct (Z.eqb_spec k' j) as [E'|N'].
      * subst k'. destruct (Z.eqb_spec k j); [lia|reflexivity].
      * exact IH.
Qed.

Lemma dict_set_fresh {V : Type} (d : list (Z * V)) (k : Z) (v : V) :
  ~ In k (map fst d) -> dict_set d k v = d ++ [(k, v)].
Proof.
  induction d as [|[k' v'] d IH]; intros Hn; cbn [dict_set app].
  - reflexivity.
  - cbn [map fst In] in Hn.
    destruct (Z.eqb_spec k' k) as [E|N]; [tauto|].
    f_equal. apply IH. tauto.
Qed.

(** Looking up a key in the dict built from [zip(range(lo, hi), xs)]. *)
Lemma dict_get_zip {X V : Type} (h : X -> V) (xs : list X) (lo hi j : Z) :
  dict_get (map (fun kx => (fst kx, h (snd kx))) (combine (range2 lo hi) xs))
           j =
  if ((lo <=? j) && (j <? hi))%Z
  then option_map h (nth_error xs (Z.to_nat (j - lo)))
  else None.
Proof.
  revert lo. induction xs as [|x xs IH]; intros lo.
  - rewrite combine_nil. cbn [map dict_get].
    destruct ((lo <=? j) && (j <? hi))%Z; [|reflexivity].
    destruct (Z.to_nat (j - lo)); reflexivity.
  - destruct (Z.lt_ge_cases lo hi) as [Hl|Hl].
    + rewrite (range2_cons lo hi Hl). cbn [combine map dict_get fst snd].
      destruct (Z.eqb_spec lo j) as [E|N].
      * subst j. replace (lo <=? lo)%Z with true by lia.
        replace (lo <? hi)%Z with true by lia.
        replace (Z.to_nat (lo - lo)) with 0%nat by lia. reflexivity.
      * rewrite IH.
        destruct (Z.leb_spec (lo + 1) j), (Z.leb_spec lo j),
          (Z.ltb_spec j hi); cbn [andb]; try reflexivity; try lia.
        replace (Z.to_nat (j - lo)) with (S (Z.to_nat (j - (lo + 1))))
          by lia.
        reflexivity.
    + rewrite (range2_nil lo hi Hl). cbn [combine map dict_get].
      destruct (Z.leb_spec lo j), (Z.ltb_spec j hi); cbn [andb];
        try reflexivity; lia.
Qed.

Lemma zip_keys_fresh {X : Type} (xs : list X) (lo hi k : Z) :
  (k < lo)%Z -> ~ In k (map fst (combine (range2 lo hi) xs)).
Proof.
  intros Hk Hin. apply in_map_iff in Hin. destruct Hin as ([k' x] & E & Hin).
  cbn [fst] in E. subst k'. apply in_combine_l in Hin.
  apply range2_In in Hin. lia.
Qed.

Section EnsembleFacts.
Context {F : Type} `{PyNum F}.

(** The forward cell, pass by pass, once the step count is known. *)
Lemma traj_ens_cell_fold (dt tmax : F) (N : Z) (xs : list (F * F))
  (lo hi : Z) (d0 : list (Z * vv_state F)) :
  steps_of tmax dt = Ok N ->
  (forall k, In k (map fst d0) -> (k < lo)%Z) ->
  fold_left
    (fun acc jpq =>
       (d <- acc ;;
        tr <- traj_ens dt tmax (fst (snd jpq)) (snd (snd jpq)) ;;
        Ok (dict_set d (fst jpq) tr))%py)
    (combine (range2 lo hi) xs) (Ok d0) =
  Ok (d0 ++ map (fun kx => (fst kx, vv_loop dt N (fst (snd kx)) (snd (snd kx))))
                (combine (range2 lo hi) xs)).
Proof.
  intros Hs. unfold traj_ens. rewrite Hs. cbn [bind].
  revert lo d0. induction xs as [|x xs IH]; intros lo d0 Hd.
  - rewrite combine_nil. cbn [fold_left map]. rewrite app_nil_r. reflexivity.
  - destruct (Z.lt_ge_cases lo hi) as [Hl|Hl].
    + rewrite (range2_cons lo hi Hl). cbn [combine fold_left map fst snd bind].
      rewrite dict_set_fresh by (intros Hin; apply Hd in Hin; lia).
      rewrite IH.
      * rewrite <- app_assoc. reflexivity.
      * intros k Hin. rewrite map_app in Hin. apply in_app_or in Hin.
        destruct Hin as [Hin|Hin]; [apply Hd in Hin; lia|].
        cbn in Hin. lia.
    + rewrite (range2_nil lo hi Hl). cbn [combine fold_left map].
      rewrite app_nil_r. reflexivity.
Qed.

Lemma in_range_true (j n : Z) :
  (0 <= j < n)%Z -> ((0 <=? j) && (j <? n))%Z = true.
Proof.
  intros Hj. apply andb_true_intro.
  split; [apply Z.leb_le|apply Z.ltb_lt]; lia.
Qed.

(** What cell 48 stores, once the step count is known. *)
Lemma traj_ens_cell_spec (n_trajs : Z) (p0s q0s : list F) (dt tmax : F)
  (N : Z) :
  steps_of tmax dt = Ok N ->
  exists d,
    traj_ens_cell n_trajs p0s q0s dt tmax = Ok d /\
    length d =
    Nat.min (Z.to_nat n_trajs) (Nat.min (length p0s) (length q0s)) /\
    forall j : Z,
      dict_get d j =
      if ((0 <=? j) && (j <? n_trajs))%Z then
        match nth_error p0s (Z.to_nat j), nth_error q0s (Z.to_nat j) with
        | Some p0, Some q0 => Some (vv_loop dt N p0 q0)
        | _, _ => None
        end
      else None.
Proof.
  intros Hs. unfold traj_ens_cell, range.
  rewrite (traj_ens_cell_fold dt tmax N _ 0 n_trajs [] Hs)
    by (intros k []).
  cbn [app]. eexists. split; [reflexivity|]. split.
  - rewrite length_map, !length_combine.
    fold (range n_trajs). rewrite range_length. reflexivity.
  - intros j.
    rewrite (dict_get_zip
               (fun pq : F * F => vv_loop dt N (fst pq) (snd pq))).
    destruct ((0 <=? j) && (j <? n_trajs))%Z; [|reflexivity].
    rewrite Z.sub_0_r.
    generalize (Z.to_nat j). intros k. revert q0s k.
    induction p0s as [|p ps' IH]; intros [|q qs'] [|k]; try reflexivity.
    + cbn [combine nth_error]. destruct (nth_error ps' k); reflexivity.
    + cbn [combine nth_error]. apply IH.
Qed.

(** X5. Cell 48, in either number model. When [int(tmax / dt)] is a step
    count [N], the cell fills [traj_ens] with one entry per triple of
    [zip(range(n_trajs), p0s, q0s)]: as many entries as the shortest of the
    three, entry [j] being the run from [(p0s[j], q0s[j])] alone, and no
    entry under any other key. When [dt] is zero the first pass raises
    [ZeroDivisionError], and nothing is raised if there is no pass. *)
Theorem X5_traj_ens_cell_entries (n_trajs : Z) (p0s q0s : list F)
  (dt tmax : F) :
  (forall N : Z, steps_of tmax dt = Ok N ->
   exists d,
     traj_ens_cell n_trajs p0s q0s dt tmax = Ok d /\
     length d =
     Nat.min (Z.to_nat n_trajs) (Nat.min (length p0s) (length q0s)) /\
     forall j : Z,
       dict_get d j =
       if ((0 <=? j) && (j <? n_trajs))%Z then
         match nth_error p0s (Z.to_nat j), nth_error q0s (Z.to_nat j) with
         | Some p0, Some q0 => Some (vv_loop dt N p0 q0)
         | _, _ => None
         end
       else None) /\
  (is_zero dt = true ->
   traj_ens_cell n_trajs p0s q0s dt tmax =
   match combine (range n_trajs) (combine p0s q0s) with
   | [] => Ok []
   | _ :: _ => Raise ZeroDivisionError
   end).
Proof.
  split.
  - intros N Hs. apply traj_ens_cell_spec. exact Hs.
  - intros Hz. unfold traj_ens_cell.
    destruct (combine (range n_trajs) (combine p0s q0s)) as [|x l];
      [reflexivity|].
    unfold traj_ens, steps_of. rewrite Hz. cbn [fold_left bind].
    apply fold_left_raise. reflexivity.
Qed.

End EnsembleFacts.

Lemma X5_traj_ens_cell_entries_witness :
  steps_of 1%float 0.25%float = Ok 4%Z /\
  (exists d,
     traj_ens_cell 2 [1%float; 2%float; 3%float] [0%float; 0%float]
                   0.25%float 1%float = Ok d /\
     length d = Nat.min (Z.to_nat 2) (Nat.min 3 2) /\
     forall j : Z,
       dict_get d j =
       if ((0 <=? j) && (j <? 2))%Z then
         match nth_error [1%float; 2%float; 3%float] (Z.to_nat j),
               nth_error [0%float; 0%float] (Z.to_nat j) with
         | Some p0, Some q0 => Some (vv_loop 0.25%float 4 p0 q0)
         | _, _ => None
         end
       else None) /\
  is_zero 0%float = true /\
  traj_ens_cell 2 [1%float] [0%float] 0%float 1%float =
  Raise ZeroDivisionError.
Proof.
  split; [vm_compute; reflexivity|]. split.
  - exact (proj1 (X5_traj_ens_cell_entries (H := PyNum_float)
                    2 [1%float; 2%float; 3%float] [0%float; 0%float]
                    0.25%float 1%float) 4%Z ltac:(vm_compute; reflexivity)).
  - split; [vm_compute; reflexivity|].
    exact (proj2 (X5_traj_ens_cell_entries (H := PyNum_float)
                    2 [1%float] [0%float] 0%float 1%float)
             ltac:(vm_compute; reflexivity)).
Defined.

Section InverseEnsembleFacts.
Context {F : Type} `{PyNum F}.

Lemma inv_traj_ens_starts (dt p0 q0 : F) (N M : Z) :
  (1 <= N)%Z ->
  exists inv, inv_traj_ens dt M (vv_loop dt N p0 q0) = Ok inv.
Proof.
  intros HN.
  destruct (Z.to_nat N) as [|n] eqn:En; [lia|].
  destruct (vv_loop_spec dt p0 q0 N) as (_ & Hp & Hq & _).
  cbn zeta in Hp, Hq. rewrite En in Hp, Hq.
  unfold inv_traj_ens. rewrite Hp, Hq, orbit_snoc, !map_app. cbn [map].
  rewrite !index_last_snoc. cbn [bind]. eexists. reflexivity.
Qed.

(** The body of the loop of cell 67. *)
Let inv_body (fwd : list (Z * vv_state F)) (dt : F) (steps : Z)
  (acc : cell_result (list (Z * vv_state F))) (j : Z)
  : cell_result (list (Z * vv_state F)) :=
  match acc with
  | Done d =>
      match dict_get fwd j with
      | None => KeyError j
      | Some tr =>
          match inv_traj_ens dt steps tr with
          | Ok inv => Done (dict_set d j inv)
          | Raise e => Failed e
          end
      end
  | KeyError k => KeyError k
  | Failed e => Failed e
  end.

Lemma inv_body_KeyError fwd dt steps (l : list Z) (k : Z) :
  fold_left (inv_body fwd dt steps) l (KeyError k) = KeyError k.
Proof. induction l as [|j l IH]; [reflexivity|exact IH]. Qed.

Lemma inv_body_Failed fwd dt steps (l : list Z) (e : pyerr) :
  fold_left (inv_body fwd dt steps) l (Failed e) = Failed e.
Proof. induction l as [|j l IH]; [reflexivity|exact IH]. Qed.

Lemma inv_body_Done fwd dt steps (l : list Z) :
  (forall j, In j l ->
     exists tr inv,
       dict_get fwd j = Some tr /\ inv_traj_ens dt steps tr = Ok inv) ->
  forall d0,
  exists d',
    fold_left (inv_body fwd dt steps) l (Done d0) = Done d' /\
    (forall j, In j l ->
       exists tr inv,
         dict_get fwd j = Some tr /\ inv_traj_ens dt steps tr = Ok inv /\
         dict_get d' j = Some inv) /\
    (forall j, ~ In j l -> dict_get d' j = dict_get d0 j).
Proof.
  induction l as [|j0 l IH]; intros Hall d0.
  - exists d0. split; [reflexivity|]. split; [intros j []|reflexivity].
  - destruct (Hall j0 (or_introl eq_refl)) as (tr0 & inv0 & Hg0 & Hi0).
    cbn [fold_left]. unfold inv_body at 2. rewrite Hg0, Hi0.
    destruct (IH (fun j Hj => Hall j (or_intror Hj)) (dict_set d0 j0 inv0))
      as (d' & Hd' & Hin & Hout).
    exists d'. split; [exact Hd'|]. split.
    + intros j Hj. destruct (in_dec Z.eq_dec j l) as [Hl|Hl].
      * apply Hin. exact Hl.
      * destruct Hj as [<-|Hj]; [|contradiction].
        exists tr0, inv0. split; [exact Hg0|]. split; [exact Hi0|].
        rewrite (Hout j0 Hl), dict_get_set, Z.eqb_refl. reflexivity.
    + intros j Hj. cbn [In] in Hj.
      rewrite (Hout j ltac:(tauto)), dict_get_set.
      destruct (Z.eqb_spec j0 j); [tauto|reflexivity].
Qed.

Lemma inv_traj_ens_cell_body n fwd dt steps :
  inv_traj_ens_cell n fwd dt steps =
  fold_left (inv_body fwd dt steps) (range n) (Done []).
Proof. reflexivity. Qed.

(** X6. Cells 48 and 67 together, in either number model, with a step
    count [N]. If [p0s] or [q0s] is shorter than [n_trajs], cell 48 stores
    fewer entries without complaint and cell 67 stops with [KeyError] at
    the first index that has none (when [N >= 1]). If the step count is
    zero or less and there is an entry 0, cell 67 stops at once with
    [IndexError]. *)
Theorem X6_inverse_cell_failures (n_trajs : Z) (p0s q0s : list F)
  (dt tmax : F) (N : Z) :
  steps_of tmax dt = Ok N ->
  exists fwd,
    traj_ens_cell n_trajs p0s q0s dt tmax = Ok fwd /\
    let k := Z.of_nat (Nat.min (length p0s) (length q0s)) in
    ((1 <= N)%Z -> (k < n_trajs)%Z ->
     inv_traj_ens_cell n_trajs fwd dt N = KeyError k) /\
    ((N <= 0)%Z -> (0 < k)%Z -> (0 < n_trajs)%Z ->
     inv_traj_ens_cell n_trajs fwd dt N = Failed IndexError).
Proof.
  intros Hs.
  destruct (traj_ens_cell_spec n_trajs p0s q0s dt tmax N Hs)
    as (fwd & Hfwd & _ & Hget).
  exists fwd. split; [exact Hfwd|]. cbn zeta.
  set (k := Z.of_nat (Nat.min (length p0s) (length q0s))).
  assert (Hent : forall j, (0 <= j < k)%Z -> (j < n_trajs)%Z ->
            exists p0 q0, dict_get fwd j = Some (vv_loop dt N p0 q0)).
  { intros j Hj Hn. rewrite Hget, in_range_true by lia.
    destruct (nth_error p0s (Z.to_nat j)) as [p0|] eqn:Ep.
    - destruct (nth_error q0s (Z.to_nat j)) as [q0|] eqn:Eq.
      + exists p0, q0. reflexivity.
      + apply nth_error_None in Eq. unfold k in Hj. lia.
    - apply nth_error_None in Ep. unfold k in Hj. lia. }
  split.
  - intros HN Hk. rewrite inv_traj_ens_cell_body. unfold range.
    rewrite (range2_app 0 k n_trajs) by (unfold k; lia).
    rewrite fold_left_app.
    destruct (inv_body_Done fwd dt N (range2 0 k))
      with (d0 := @nil (Z * vv_state F)) as (d' & Hd' & _).
    { intros j Hj. apply range2_In in Hj.
      destruct (Hent j Hj ltac:(lia)) as (p0 & q0 & Hg).
      destruct (inv_traj_ens_starts dt p0 q0 N N HN) as (inv & Hinv).
      exists (vv_loop dt N p0 q0), inv. split; assumption. }
    rewrite Hd', (range2_cons k n_trajs Hk). cbn [fold_left].
    unfold inv_body at 2. rewrite Hget, in_range_true by (unfold k; lia).
    assert (Hnone : nth_error p0s (Z.to_nat k) = None \/
                    nth_error q0s (Z.to_nat k) = None).
    { unfold k. rewrite Nat2Z.id.
      destruct (Nat.min_spec (length p0s) (length q0s)) as [[_ ->]|[_ ->]];
        [left|right]; apply nth_error_None; lia. }
    assert (Hmiss : match nth_error p0s (Z.to_nat k),
                          nth_error q0s (Z.to_nat k) with
                    | Some p0, Some q0 => Some (vv_loop dt N p0 q0)
                    | _, _ => None
                    end = None).
    { destruct Hnone as [-> | ->]; [reflexivity|].
      destruct (nth_error p0s (Z.to_nat k)); reflexivity. }
    rewrite Hmiss. apply inv_body_KeyError.
  - intros HN Hk Hn. rewrite inv_traj_ens_cell_body.
    destruct (range_cons n_trajs Hn) as (l & El). rewrite El.
    cbn [fold_left]. unfold inv_body at 2.
    destruct (Hent 0%Z ltac:(lia) Hn) as (p0 & q0 & Hg). rewrite Hg.
    destruct (vv_loop_empty dt p0 q0 N HN) as [Hp _].
    unfold inv_traj_ens. rewrite Hp. cbn [index_last fold_left bind].
    apply inv_body_Failed.
Qed.

End InverseEnsembleFacts.

Lemma X6_inverse_cell_failures_witness :
  steps_of 1%float 0.25%float = Ok 4%Z /\ (1 <= 4)%Z /\ (1 < 2)%Z /\
  (exists fwd,
     traj_ens_cell 2 [1%float] [0%float; 0%float] 0.25%float 1%float =
     Ok fwd /\
     inv_traj_ens_cell 2 fwd 0.25%float 4 = KeyError 1) /\
  steps_of 0%float 0.25%float = Ok 0%Z /\ (0 <= 0)%Z /\ (0 < 1)%Z /\
  (0 < 2)%Z /\
  (exists fwd,
     traj_ens_cell 2 [1%float] [0%float; 0%float] 0.25%float 0%float =
     Ok fwd /\
     inv_traj_ens_cell 2 fwd 0.25%float 0 = Failed IndexError).
Proof.
  split; [vm_compute; reflexivity|]. split; [lia|]. split; [lia|]. split.
  - destruct (X6_inverse_cell_failures (H := PyNum_float)
                2 [1%float] [0%float; 0%float] 0.25%float 1%float 4%Z
                ltac:(vm_compute; reflexivity)) as (fwd & Hf & Hk & _).
    exists fwd. split; [exact Hf|]. apply Hk; cbn; lia.
  - split; [vm_compute; reflexivity|]. split; [lia|]. split; [lia|].
    split; [lia|].
    destruct (X6_inverse_cell_failures (H := PyNum_float)
                2 [1%float] [0%float; 0%float] 0.25%float 0%float 0%Z
                ltac:(vm_compute; reflexivity)) as (fwd & Hf & _ & Hi).
    exists fwd. split; [exact Hf|]. apply Hi; cbn; lia.
Defined.

(** X7. Cells 48 and 67 together in exact arithmetic. With a step count
    [N >= 1] and at least [n_trajs] initial momenta and positions, both
    cells finish, and for every index [j < n_trajs] the position list of
    [inv_traj_ens[j]] read backwards is [q0s[j]] followed by the position
    list of [traj_ens[j]] without its last entry: every member of the
    ensemble retraces its own forward run. *)
Theorem X7_ensemble_retraces (n_trajs : Z) (p0s q0s : list R)
  (dt tmax : R) (N : Z) :
  steps_of tmax dt = Ok N -> (1 <= N)%Z ->
  (n_trajs <= Z.of_nat (length p0s))%Z ->
  (n_trajs <= Z.of_nat (length q0s))%Z ->
  exists fwd inv,
    traj_ens_cell n_trajs p0s q0s dt tmax = Ok fwd /\
    inv_traj_ens_cell n_trajs fwd dt N = Done inv /\
    forall j : Z, (0 <= j < n_trajs)%Z ->
      exists tf ti,
        dict_get fwd j = Some tf /\ dict_get inv j = Some ti /\
        reversed (qlist ti) =
        removelast (nth (Z.to_nat j) q0s 0 :: qlist tf).
Proof.
  intros Hs HN Hp Hq.
  destruct (traj_ens_cell_spec n_trajs p0s q0s dt tmax N Hs)
    as (fwd & Hfwd & _ & Hget).
  assert (Hent : forall j, (0 <= j < n_trajs)%Z ->
            exists p0,
              dict_get fwd j =
              Some (vv_loop dt N p0 (nth (Z.to_nat j) q0s 0))).
  { intros j Hj. rewrite Hget, in_range_true by lia.
    destruct (nth_error p0s (Z.to_nat j)) as [p0|] eqn:Ep;
      [|apply nth_error_None in Ep; lia].
    destruct (nth_error q0s (Z.to_nat j)) as [q0|] eqn:Eq;
      [|apply nth_error_None in Eq; lia].
    exists p0. rewrite (nth_error_nth _ _ 0 Eq). reflexivity. }
  destruct (inv_body_Done fwd dt N (range n_trajs))
    with (d0 := @nil (Z * vv_state R)) as (inv & Hinv & Hin & _).
  { intros j Hj. apply range2_In in Hj.
    destruct (Hent j Hj) as (p0 & Hg).
    destruct (inv_traj_ens_starts dt p0 (nth (Z.to_nat j) q0s 0) N N HN)
      as (ti & Hti).
    eexists. exists ti. split; [exact Hg|exact Hti]. }
  exists fwd, inv. split; [exact Hfwd|]. split; [exact Hinv|].
  intros j Hj.
  destruct (Hin j (proj2 (range2_In 0 n_trajs j) Hj))
    as (tf & ti & Hg & Hti & Hgi).
  exists tf, ti. split; [exact Hg|]. split; [exact Hgi|].
  destruct (Hent j Hj) as (p0 & Hg'). rewrite Hg in Hg'.
  injection Hg' as ->.
  destruct (Z.to_nat N) as [|n] eqn:En; [lia|].
  assert (HNn : N = Z.of_nat (S n)) by lia. rewrite HNn in Hti |- *.
  destruct (inv_traj_ens_R dt p0 (nth (Z.to_nat j) q0s 0) n)
    as (ti' & Hti' & Hrev).
  rewrite Hti in Hti'. injection Hti' as <-.
  rewrite reversed_rev. exact Hrev.
Qed.

Lemma X7_ensemble_retraces_witness :
  steps_of 100 (1 / 100) = Ok 10000%Z /\ (1 <= 10000)%Z /\
  (2 <= Z.of_nat (length [1; 2]))%Z /\
  (2 <= Z.of_nat (length [0; 3]))%Z /\
  exists fwd inv,
    traj_ens_cell 2 [1; 2] [0; 3] (1 / 100) 100 = Ok fwd /\
    inv_traj_ens_cell 2 fwd (1 / 100) 10000 = Done inv /\
    forall j : Z, (0 <= j < 2)%Z ->
      exists tf ti,
        dict_get fwd j = Some tf /\ dict_get inv j = Some ti /\
        reversed (qlist ti) =
        removelast (nth (Z.to_nat j) [0; 3] 0 :: qlist tf).
Proof.
  split; [exact (proj1 steps_of_cell)|]. split; [lia|].
  split; [cbn; lia|]. split; [cbn; lia|].
  exact (X7_ensemble_retraces 2 [1; 2] [0; 3] (1 / 100) 100 10000%Z
           (proj1 steps_of_cell) ltac:(lia) ltac:(cbn; lia) ltac:(cbn; lia)).
Defined.

(** ** The Boltzmann weight: failures, range, and along a run (cells 62, 64) *)

Lemma exp_le_mono (x y : R) : x <= y -> exp x <= exp y.
Proof.
  intros [Hlt | ->]; [left; apply exp_increasing; exact Hlt|right; reflexivity].
Qed.

Lemma Rabs_le_between (a b : R) : Rabs a <= b -> - b <= a <= b.
Proof. unfold Rabs. destruct (Rcase_abs a); lra. Qed.

Lemma np_add_nonneg (a b e : list R) :
  Forall (fun x => 0 <= x) a -> Forall (fun x => 0 <= x) b ->
  np_add a b = Ok e -> Forall (fun x => 0 <= x) e.
Proof.
  intros Ha Hb. unfold np_add.
  assert (Hz : Forall (fun x => 0 <= x)
                 (map (fun ab => fst ab + snd ab) (combine a b))).
  { apply Forall_forall. intros x Hx. apply in_map_iff in Hx.
    destruct Hx as ([u v] & <- & Hin). cbn [fst snd].
    pose proof (proj1 (Forall_forall _ a) Ha u (in_combine_l _ _ _ _ Hin)).
    pose proof (proj1 (Forall_forall _ b) Hb v (in_combine_r _ _ _ _ Hin)).
    lra. }
  assert (Hbc : forall (x : R) (l : list R),
             0 <= x -> Forall (fun y => 0 <= y) l ->
             Forall (fun y => 0 <= y) (map (fun y => x + y) l)).
  { intros x l Hx Hl. apply Forall_forall. intros y Hy.
    apply in_map_iff in Hy. destruct Hy as (u & <- & Hin).
    pose proof (proj1 (Forall_forall _ l) Hl u Hin). lra. }
  assert (Hbc' : forall (y : R) (l : list R),
             0 <= y -> Forall (fun x => 0 <= x) l ->
             Forall (fun x => 0 <= x) (map (fun x => x + y) l)).
  { intros y l Hy Hl. apply Forall_forall. intros x Hx.
    apply in_map_iff in Hx. destruct Hx as (u & <- & Hin).
    pose proof (proj1 (Forall_forall _ l) Hl u Hin). lra. }
  destruct (length a =? length b)%nat; [intros [= <-]; exact Hz|].
  destruct a as [|x [|x' a]].
  - destruct b as [|y [|y' b]]; intros [= <-]; constructor.
  - intros [= <-]. apply Hbc; [|exact Hb]. inversion Ha; assumption.
  - destruct b as [|y [|y' b]]; intros E; try discriminate.
    injection E as <-. inversion Hb as [|? ? Hy _]; subst.
    exact (Hbc' y (x :: x' :: a) Hy Ha).
Qed.

Lemma squares_nonneg (l : list R) :
  Forall (fun x => 0 <= x) (map (fun x => x ^ 2 / 2) l).
Proof.
  apply Forall_forall. intros y Hy. apply in_map_iff in Hy.
  destruct Hy as (x & <- & _). pose proof (pow2_ge_0 x). lra.
Qed.

(** X8. [boltzweight] fails with [NameError] when the global [ps] or [qs]
    is unbound (cell 64 not run), whatever is passed for [p] and [q], and
    with [ValueError] when the two global arrays have different lengths,
    neither of them 1. Whenever it returns, every weight is positive, and
    at most 1 if [beta >= 0]. *)
Theorem X8_boltzweight_outcomes :
  forall (A B : Type) (g : globals) (p : A) (q : B) (b : R),
    ((ps g = None \/ qs g = None) ->
     boltzweight g p q b = Raise NameError) /\
    (forall a c : list R,
       ps g = Some a -> qs g = Some c ->
       length a <> length c -> length a <> 1%nat -> length c <> 1%nat ->
       boltzweight g p q b = Raise ValueError) /\
    (forall w : list R,
       boltzweight g p q b = Ok w ->
       Forall (fun x => 0 < x /\ (0 <= b -> x <= 1)) w).
Proof.
  intros A B g p q b. split; [|split].
  - intros [Hp|Hq]; unfold boltzweight.
    + rewrite Hp. reflexivity.
    + rewrite Hq. destruct (ps g); reflexivity.
  - intros a c Hp Hq Hl Ha Hc. unfold boltzweight. rewrite Hp, Hq.
    cbn [lookup bind]. unfold np_add. rewrite !length_map.
    destruct (Nat.eqb_spec (length a) (length c)) as [E|_]; [contradiction|].
    destruct a as [|x [|x' a]]; [| cbn in Ha; contradiction |];
      (destruct c as [|y [|y' c]]; [| cbn in Hc; contradiction |]);
      try reflexivity; cbn in Hl; contradiction.
  - intros w. unfold boltzweight.
    destruct (ps g) as [a|]; cbn [lookup bind]; [|discriminate].
    destruct (qs g) as [c|]; cbn [lookup bind]; [|discriminate].
    destruct (np_add (map (fun x => x ^ 2 / 2) a)
                     (map (fun x => x ^ 2 / 2) c)) as [e|] eqn:Ee;
      cbn [bind]; [|discriminate].
    intros [= <-].
    pose proof (np_add_nonneg _ _ e (squares_nonneg a) (squares_nonneg c) Ee)
      as He.
    apply Forall_forall. intros y Hy. apply in_map_iff in Hy.
    destruct Hy as (x & <- & Hin). split; [apply exp_pos|].
    intros Hb. pose proof (proj1 (Forall_forall _ e) He x Hin) as Hx.
    rewrite <- exp_0. apply exp_le_mono. nra.
Qed.

Lemma X8_boltzweight_outcomes_witness :
  let g := mk_globals (Some [1; 2; 3]) (Some [1; 2]) in
  let g0 := mk_globals None (Some [1]) in
  (ps g0 = None \/ qs g0 = None) /\
  boltzweight g0 0 0 1 = Raise NameError /\
  ps g = Some [1; 2; 3] /\ qs g = Some [1; 2] /\
  length [1; 2; 3] <> length [1; 2] /\
  length [1; 2; 3] <> 1%nat /\ length [1; 2] <> 1%nat /\
  boltzweight g 0 0 1 = Raise ValueError.
Proof.
  cbn zeta. split; [left; reflexivity|].
  split.
  - exact (proj1 (X8_boltzweight_outcomes R R (mk_globals None (Some [1]))
                    0 0 1) (or_introl eq_refl)).
  - split; [reflexivity|]. split; [reflexivity|].
    split; [discriminate|]. split; [discriminate|]. split; [discriminate|].
    exact (proj1 (proj2 (X8_boltzweight_outcomes R R
                           (mk_globals (Some [1; 2; 3]) (Some [1; 2]))
                           0 0 1))
             [1; 2; 3] [1; 2] eq_refl eq_refl ltac:(discriminate)
             ltac:(discriminate) ltac:(discriminate)).
Defined.

Lemma boltzweight_zip (g : globals) (a c : list R) (b : R) :
  ps g = Some a -> qs g = Some c -> length a = length c ->
  boltzweight g tt tt b =
  Ok (map (fun pq => exp (- b * (fst pq ^ 2 / 2 + snd pq ^ 2 / 2)))
          (combine a c)).
Proof.
  intros Hp Hq Hl. unfold boltzweight. rewrite Hp, Hq. cbn [lookup bind].
  rewrite np_add_same_length by (rewrite !length_map; exact Hl).
  cbn [bind]. f_equal. rewrite map_map. clear Hp Hq. revert c Hl.
  induction a as [|x a IH]; intros [|y c] Hl; cbn in Hl |- *;
    try reflexivity; try discriminate.
  f_equal. apply IH. lia.
Qed.

(** X9. Cells 48, 64 and 62 together, in exact arithmetic: with the
    globals bound to the recorded lists of one run, [boltzweight] returns
    one weight per recorded state, and for [0 < dt <= 1] and [beta >= 0]
    every weight lies within the factors [exp(-/+ beta E0 dt^2 / 3)] of the
    initial weight [exp(-beta E0)], [E0] being the initial energy: the
    Boltzmann weight is conserved up to order [dt^2], for any number of
    steps. *)
Theorem X9_boltzweight_along_run (p0 q0 dt b : R) (N : Z) :
  0 < dt <= 1 -> 0 <= b ->
  let tr := vv_loop dt N p0 q0 in
  let E0 := energy p0 q0 in
  exists w,
    boltzweight (globals_of tr) tt tt b = Ok w /\
    length w = Z.to_nat N /\
    forall k : nat, (k < Z.to_nat N)%nat ->
      exp (- b * E0) * exp (- (b * E0 / 3 * (dt * dt))) <= nth k w 0 /\
      nth k w 0 <= exp (- b * E0) * exp (b * E0 / 3 * (dt * dt)).
Proof.
  intros Hdt Hb. cbn zeta.
  destruct (recorded_lengths dt p0 q0 N) as (Lp & Lq & _).
  rewrite (boltzweight_zip (globals_of (vv_loop dt N p0 q0))
             (plist (vv_loop dt N p0 q0)) (qlist (vv_loop dt N p0 q0)) b
             eq_refl eq_refl) by (rewrite Lp, Lq; reflexivity).
  eexists. split; [reflexivity|]. split.
  - rewrite length_map, length_combine, Lp, Lq. apply Nat.min_id.
  - intros k Hk.
    set (g := fun pq : R * R =>
                exp (- b * (fst pq ^ 2 / 2 + snd pq ^ 2 / 2))).
    rewrite (nth_indep _ 0 (g (0, 0)))
      by (rewrite length_map, length_combine, Lp, Lq; lia).
    rewrite map_nth, combine_nth by (rewrite Lp, Lq; reflexivity).
    unfold g. cbn [fst snd].
    pose proof (recorded_nth dt p0 q0 N (S k) ltac:(lia)) as HS.
    cbn [nth] in HS.
    pose proof (energy_drift_iter dt (p0, q0) (S k) Hdt) as Hd.
    cbn zeta in Hd. rewrite <- HS in Hd. cbn [fst snd] in Hd.
    rewrite !energy_R in Hd. apply Rabs_le_between in Hd.
    set (pk := nth k (plist (vv_loop dt N p0 q0)) 0) in *.
    set (qk := nth k (qlist (vv_loop dt N p0 q0)) 0) in *.
    rewrite energy_R. rewrite <- !exp_plus.
    split; apply exp_le_mono; nra.
Qed.

Lemma X9_boltzweight_along_run_witness :
  0 < 1 / 2 <= 1 /\ 0 <= 2 /\
  let tr := vv_loop (1 / 2) 3 1 0 in
  let E0 := energy 1 0 in
  exists w,
    boltzweight (globals_of tr) tt tt 2 = Ok w /\
    length w = Z.to_nat 3 /\
    forall k : nat, (k < Z.to_nat 3)%nat ->
      exp (- 2 * E0) * exp (- (2 * E0 / 3 * (1 / 2 * (1 / 2)))) <=
      nth k w 0 /\
      nth k w 0 <= exp (- 2 * E0) * exp (2 * E0 / 3 * (1 / 2 * (1 / 2))).
Proof.
  split; [lra|]. split; [lra|].
  exact (X9_boltzweight_along_run 1 0 (1 / 2) 2 3%Z ltac:(lra) ltac:(lra)).
Defined.

(** ** The damping function (cell 35) *)

Lemma fdamp_arg_sq (t : R) : (t / 40 / PI) ^ 2 = t * t / (1600 * (PI * PI)).
Proof. pose proof PI_RGT_0. field. lra. Qed.

(** X10. [fdamp] keeps the length of [t]; at every time its value is in
    (0, 1]; it is even; it is 1 exactly at [t = 0]; and it does not
    increase with [|t|]. *)
Theorem X10_fdamp_shape :
  (forall t : list R, length (fdamp t) = length t) /\
  (forall t : R, 0 < fdamp_at t <= 1) /\
  (forall t : R, fdamp_at (- t) = fdamp_at t) /\
  (forall t : R, fdamp_at t = 1 <-> t = 0) /\
  (forall s t : R, Rabs s <= Rabs t -> fdamp_at t <= fdamp_at s).
Proof.
  pose proof PI_RGT_0 as Hpi.
  assert (Hden : 0 < 1600 * (PI * PI)) by nra.
  assert (Hsq : forall t, 0 <= t * t / (1600 * (PI * PI))).
  { intros t. apply Rmult_le_pos; [nra|].
    left. apply Rinv_0_lt_compat. exact Hden. }
  split; [intros t; apply length_map|].
  split; [|split; [|split]].
  - intros t. unfold fdamp_at. rewrite fdamp_arg_sq. split; [apply exp_pos|].
    rewrite <- exp_0. apply exp_le_mono. specialize (Hsq t). lra.
  - intros t. unfold fdamp_at. rewrite !fdamp_arg_sq. f_equal. f_equal.
    f_equal. ring.
  - intros t. unfold fdamp_at. rewrite fdamp_arg_sq. split.
    + intros E. rewrite <- exp_0 in E. apply exp_inv in E.
      assert (Ht : t * t = 0).
      { apply Rmult_eq_reg_r with (r := / (1600 * (PI * PI))).
        - unfold Rdiv in E. lra.
        - apply Rinv_neq_0_compat. lra. }
      nra.
    + intros ->. replace (- (0 * 0 / (1600 * (PI * PI)))) with 0
        by (field; lra).
      apply exp_0.
  - intros s t Hst. unfold fdamp_at. rewrite !fdamp_arg_sq.
    apply exp_le_mono.
    assert (Hss : s * s <= t * t).
    { assert (Es : s * s = Rabs s * Rabs s)
        by (rewrite <- Rabs_mult; symmetry; apply Rabs_pos_eq; nra).
      assert (Et : t * t = Rabs t * Rabs t)
        by (rewrite <- Rabs_mult; symmetry; apply Rabs_pos_eq; nra).
      rewrite Es, Et. pose proof (Rabs_pos s). nra. }
    apply Ropp_le_contravar. unfold Rdiv.
    apply Rmult_le_compat_r; [|exact Hss].
    left. apply Rinv_0_lt_compat. exact Hden.
Qed.

Lemma X10_fdamp_shape_witness :
  Rabs 1 <= Rabs (- 2) /\ fdamp_at (- 2) <= fdamp_at 1.
Proof.
  assert (H : Rabs 1 <= Rabs (- 2)).
  { unfold Rabs. destruct (Rcase_abs 1), (Rcase_abs (- 2)); lra. }
  split; [exact H|].
  exact (proj2 (proj2 (proj2 (proj2 X10_fdamp_shape))) 1 (- 2) H).
Defined.

(** ** The test signal (cell 39) *)

Lemma np_sum_axis0_nth (rows : list (list R)) (acc : list R) (k : nat) :
  (forall row, In row rows -> length row = length acc) ->
  let out :=
    fold_left
      (fun acc row => map (fun ab => fst ab + snd ab) (combine acc row))
      rows acc in
  length out = length acc /\
  ((k < length acc)%nat ->
   nth k out 0 = fold_left (fun s row => s + nth k row 0) rows (nth k acc 0)).
Proof.
  cbn zeta. revert acc.
  induction rows as [|row rows IH]; intros acc Hrows.
  - split; reflexivity.
  - cbn [fold_left].
    assert (Hlen : length row = length acc) by (apply Hrows; left; reflexivity).
    set (acc' := map (fun ab => fst ab + snd ab) (combine acc row)).
    assert (Hacc' : length acc' = length acc).
    { unfold acc'. rewrite length_map, length_combine, Hlen. apply Nat.min_id. }
    destruct (IH acc') as [IHl IHn].
    { intros r Hr. rewrite Hacc'. apply Hrows. right. exact Hr. }
    split; [rewrite IHl; exact Hacc'|].
    intros Hk. rewrite IHn by (rewrite Hacc'; exact Hk). f_equal.
    unfold acc'. set (g := fun ab : R * R => fst ab + snd ab).
    rewrite (nth_indep _ 0 (g (0, 0)))
      by (rewrite length_map, length_combine, Hlen, Nat.min_id; exact Hk).
    rewrite map_nth, combine_nth by (symmetry; exact Hlen). reflexivity.
Qed.

Lemma fold_cos_bound (ws : list R) (x s0 : R) :
  Rabs (fold_left (fun s w => s + cos (w * x)) ws s0) <=
  Rabs s0 + INR (length ws).
Proof.
  revert s0. induction ws as [|w ws IH]; intros s0.
  - cbn. lra.
  - cbn [fold_left length]. rewrite S_INR.
    eapply Rle_trans; [apply IH|].
    pose proof (Rabs_triang s0 (cos (w * x))) as Ht.
    pose proof (COS_bound (w * x)) as Hc.
    assert (Rabs (cos (w * x)) <= 1) by (apply Rabs_le; lra).
    lra.
Qed.

Lemma wave_rows_nth (t ws : list R) (k : nat) (s0 : R) :
  (k < length t)%nat ->
  fold_left (fun s row => s + nth k row 0)
    (map (fun x => map cos (map (fun y => x * y) t)) ws) s0 =
  fold_left (fun s w => s + cos (w * nth k t 0)) ws s0.
Proof.
  intros Hk. revert s0.
  induction ws as [|w ws IH]; intros s0; [reflexivity|].
  cbn [map fold_left]. rewrite IH. f_equal. f_equal.
  rewrite (nth_indep _ 0 (cos (w * 0))) by (rewrite !length_map; exact Hk).
  rewrite (map_nth cos), (map_nth (fun y => w * y)). reflexivity.
Qed.

(** X11. [wave(t, ws)] has one entry per time; entry [k] is the sum over
    the frequencies [w] of [cos(w * t[k])] (the column sum of the cosine of
    the outer product), so its absolute value is at most the number of
    frequencies. With no frequency it is all zeros. *)
Theorem X11_wave_is_cosine_sum (t ws : list R) :
  length (wave t ws) = length t /\
  forall k : nat, (k < length t)%nat ->
    nth k (wave t ws) 0 =
    fold_left (fun s w => s + cos (w * nth k t 0)) ws 0 /\
    Rabs (nth k (wave t ws) 0) <= INR (length ws).
Proof.
  unfold wave, np_sum_axis0, np_outer. rewrite map_map.
  destruct (np_sum_axis0_nth
              (map (fun x => map cos (map (fun y => x * y) t)) ws)
              (repeat 0 (length t)) 0) as [Hl _].
  { intros row Hr. apply in_map_iff in Hr. destruct Hr as (w & <- & _).
    rewrite !length_map, repeat_length. reflexivity. }
  cbn zeta in Hl. rewrite repeat_length in Hl.
  split; [exact Hl|].
  intros k Hk.
  destruct (np_sum_axis0_nth
              (map (fun x => map cos (map (fun y => x * y) t)) ws)
              (repeat 0 (length t)) k) as [_ Hn].
  { intros row Hr. apply in_map_iff in Hr. destruct Hr as (w & <- & _).
    rewrite !length_map, repeat_length. reflexivity. }
  cbn zeta in Hn. rewrite repeat_length in Hn. specialize (Hn Hk).
  rewrite nth_repeat in Hn.
  rewrite (wave_rows_nth t ws k 0 Hk) in Hn. split; [exact Hn|].
  rewrite Hn. pose proof (fold_cos_bound ws (nth k t 0) 0) as Hb.
  rewrite Rabs_R0 in Hb. lra.
Qed.

Lemma X11_wave_is_cosine_sum_witness :
  (1 < length [0; 1; 2])%nat /\
  nth 1 (wave [0; 1; 2] [3; 4]) 0 =
  fold_left (fun s w => s + cos (w * nth 1 [0; 1; 2] 0)) [3; 4] 0 /\
  Rabs (nth 1 (wave [0; 1; 2] [3; 4]) 0) <= INR (length [3; 4]).
Proof.
  split; [cbn; lia|].
  exact (proj2 (X11_wave_is_cosine_sum [0; 1; 2] [3; 4]) 1%nat
           ltac:(cbn; lia)).
Defined.

(** ** The Fourier sum (cell 39) *)

Lemma Cexp_minus_j (x y : R) :
  Cexp (Cmul (Cmul (Copp Cj) (RtoC x)) (RtoC y)) =
  (cos (x * y), - sin (x * y)).
Proof.
  unfold Cexp, Cmul, Copp, Cj, RtoC. cbn [fst snd].
  match goal with
  | |- (exp ?a * cos ?b, exp ?a * sin ?b) = _ =>
      replace a with 0 by ring; replace b with (- (x * y)) by ring
  end.
  rewrite exp_0, cos_neg, sin_neg. f_equal; ring.
Qed.

Lemma fst_np_sum_C (l : list complex) (acc : complex) :
  fst (fold_left Cadd l acc) = fold_left Rplus (map fst l) (fst acc).
Proof.
  revert acc. induction l as [|z l IH]; intros acc; [reflexivity|].
  cbn [fold_left map]. rewrite IH. reflexivity.
Qed.

Lemma ft_entry_cosine (dt wi : R) (t signal : list R) :
  length signal = length t ->
  ft_entry dt wi t signal =
  Ok (fold_left (fun s ts => s + dt * cos (wi * fst ts) * snd ts)
                (combine t signal) 0).
Proof.
  intros Hl. unfold ft_entry, np_mul_CR.
  rewrite length_map, Hl, Nat.eqb_refl. cbn [bind]. f_equal.
  unfold np_sum_C. rewrite fst_np_sum_C. cbn [fst C0 RtoC].
  generalize 0. clear Hl. revert signal.
  induction t as [|tk t IH]; intros signal s0; [reflexivity|].
  destruct signal as [|sk signal]; [reflexivity|].
  cbn [map combine fold_left fst snd]. rewrite IH. f_equal.
  rewrite Cexp_minus_j. unfold Cmul, RtoC. cbn [fst snd]. ring.
Qed.

Lemma ft_fold_ok (dt : R) (t signal w : list R) (h : R -> R)
  (acc : list R) :
  (forall wi, ft_entry dt wi t signal = Ok (h wi)) ->
  fold_left
    (fun acc wi =>
       (ft <- acc ;; x <- ft_entry dt wi t signal ;; Ok (ft ++ [x]))%py)
    w (Ok acc) = Ok (acc ++ map h w).
Proof.
  intros Hh. revert acc. induction w as [|wi w IH]; intros acc.
  - cbn. rewrite app_nil_r. reflexivity.
  - cbn [fold_left bind map]. rewrite Hh. cbn [bind].
    rewrite IH, <- app_assoc. reflexivity.
Qed.

(** X12. The Fourier cell needs two time points: with fewer, [t[1]]
    raises [IndexError]. With [signal] as long as [t], entry [i] of [ft] is
    the real cosine sum [dt * sum_k cos(w[i] t[k]) signal[k]] with
    [dt = t[1] - t[0]] (the real part of the complex sum the cell
    evaluates), one entry per frequency. With a [signal] of another length
    (not 1) the first pass raises [ValueError]. *)
Theorem X12_ft_cell_is_cosine_transform (t signal w : list R) :
  ((length t < 2)%nat -> ft_cell t signal w = Raise IndexError) /\
  (forall (t0 t1 : R) (rest : list R),
     t = t0 :: t1 :: rest -> length signal = length t ->
     ft_cell t signal w =
     Ok (map (fun wi =>
                fold_left
                  (fun s ts => s + (t1 - t0) * cos (wi * fst ts) * snd ts)
                  (combine t signal) 0)
             w)) /\
  ((2 <= length t)%nat -> length signal <> length t ->
   length signal <> 1%nat -> w <> [] ->
   ft_cell t signal w = Raise ValueError).
Proof.
  split; [|split].
  - intros Hl. destruct t as [|t0 [|t1 rest]]; cbn in Hl; try lia;
      reflexivity.
  - intros t0 t1 rest -> Hl. unfold ft_cell, index. cbn [nth_error bind].
    rewrite (ft_fold_ok (t1 - t0) (t0 :: t1 :: rest) signal w
               (fun wi =>
                  fold_left
                    (fun s ts => s + (t1 - t0) * cos (wi * fst ts) * snd ts)
                    (combine (t0 :: t1 :: rest) signal) 0) []).
    + reflexivity.
    + intros wi. apply ft_entry_cosine. exact Hl.
  - intros Ht Hl H1 Hw.
    destruct t as [|t0 [|t1 rest]]; cbn in Ht; try lia.
    destruct w as [|wi w]; [contradiction|].
    unfold ft_cell, index. cbn [nth_error bind fold_left].
    assert (He : ft_entry (t1 - t0) wi (t0 :: t1 :: rest) signal =
                 Raise ValueError).
    { unfold ft_entry, np_mul_CR. rewrite length_map.
      destruct (Nat.eqb_spec (length (t0 :: t1 :: rest)) (length signal))
        as [E|_]; [congruence|].
      cbn [map]. destruct signal as [|s0 [|s1 signal]]; try reflexivity.
      cbn in H1. contradiction. }
    rewrite He. cbn [bind]. apply fold_left_raise. reflexivity.
Qed.

Lemma X12_ft_cell_is_cosine_transform_witness :
  (length [5] < 2)%nat /\
  ft_cell [5] [1] [0; 1] = Raise IndexError /\
  length [1; 1; 1] = length [0; 1; 2] /\
  ft_cell [0; 1; 2] [1; 1; 1] [0; 3] =
  Ok (map (fun wi =>
             fold_left
               (fun s ts => s + (1 - 0) * cos (wi * fst ts) * snd ts)
               (combine [0; 1; 2] [1; 1; 1]) 0)
          [0; 3]).
Proof.
  split; [cbn; lia|]. split.
  - exact (proj1 (X12_ft_cell_is_cosine_transform [5] [1] [0; 1])
             ltac:(cbn; lia)).
  - split; [reflexivity|].
    exact (proj1 (proj2 (X12_ft_cell_is_cosine_transform
                           [0; 1; 2] [1; 1; 1] [0; 3]))
             0 1 [2] eq_refl eq_refl).
Defined.

(** ** Symmetry and size of the standard correlation function (cell 17) *)

Lemma phase_polar (i j : Z) (omega t : R) :
  phase i j omega t =
  (cos ((Ei i omega false - Ei j omega false) * t),
   - sin ((Ei i omega false - Ei j omega false) * t)).
Proof.
  unfold phase, Cexp, Cdiv, Cmul, Copp, Cj, RtoC, hbar.
  cbn [fst snd of_int PyNum_R].
  set (dE := Ei i omega false - Ei j omega false).
  match goal with
  | |- (exp ?a * cos ?b, exp ?a * sin ?b) = _ =>
      replace a with 0 by (field; lra);
      replace b with (- (dE * t)) by (field; lra)
  end.
  rewrite exp_0, cos_neg, sin_neg. f_equal; ring.
Qed.

Lemma phase_neg (i j : Z) (omega t : R) :
  phase i j omega (- t) = Cconj (phase i j omega t).
Proof.
  rewrite !phase_polar. unfold Cconj. cbn [fst snd].
  replace ((Ei i omega false - Ei j omega false) * - t)
    with (- ((Ei i omega false - Ei j omega false) * t)) by ring.
  rewrite cos_neg, sin_neg. reflexivity.
Qed.

Lemma Cconj_add (z w : complex) : Cconj (Cadd z w) = Cadd (Cconj z) (Cconj w).
Proof. unfold Cconj, Cadd. cbn [fst snd]. f_equal. ring. Qed.

Lemma Cconj_scale (z : complex) (a : R) :
  Cconj (Cmul z (RtoC a)) = Cmul (Cconj z) (RtoC a).
Proof. unfold Cconj, Cmul, RtoC. cbn [fst snd]. f_equal; ring. Qed.

Lemma Cconj_div_real (z : complex) (r : R) :
  Cconj (Cdiv z (RtoC r)) = Cdiv (Cconj z) (RtoC r).
Proof. unfold Cconj, Cdiv, RtoC, Rdiv. cbn [fst snd]. f_equal; ring. Qed.




Lemma dominated_add (z z0 w w0 : complex) :
  Rabs (fst z) <= fst z0 /\ Rabs (snd z) <= fst z0 ->
  Rabs (fst w) <= fst w0 /\ Rabs (snd w) <= fst w0 ->
  Rabs (fst (Cadd z w)) <= fst (Cadd z0 w0) /\
  Rabs (snd (Cadd z w)) <= fst (Cadd z0 w0).
Proof.
  intros [H1 H2] [H3 H4]. unfold Cadd. cbn [fst snd].
  pose proof (Rabs_triang (fst z) (fst w)).
  pose proof (Rabs_triang (snd z) (snd w)). split; lra.
Qed.

Lemma dominated_scale (z z0 : complex) (a : R) :
  0 <= a ->
  Rabs (fst z) <= fst z0 /\ Rabs (snd z) <= fst z0 ->
  snd z0 = 0 ->
  Rabs (fst (Cmul z (RtoC a))) <= fst (Cmul z0 (RtoC a)) /\
  Rabs (snd (Cmul z (RtoC a))) <= fst (Cmul z0 (RtoC a)).
Proof.
  intros Ha [H1 H2] H0. unfold Cmul, RtoC. cbn [fst snd]. rewrite H0.
  replace (fst z * a - snd z * 0) with (fst z * a) by ring.
  replace (fst z * 0 + snd z * a) with (snd z * a) by ring.
  replace (fst z0 * a - 0 * 0) with (fst z0 * a) by ring.
  rewrite !Rabs_mult, (Rabs_pos_eq a Ha).
  split; apply Rmult_le_compat_r; assumption.
Qed.

Lemma phase_dominated (i j : Z) (omega t : R) :
  Rabs (fst (phase i j omega t)) <= fst (phase i j omega 0) /\
  Rabs (snd (phase i j omega t)) <= fst (phase i j omega 0).
Proof.
  rewrite phase_t0, phase_polar. cbn [fst snd].
  pose proof (COS_bound ((Ei i omega false - Ei j omega false) * t)).
  pose proof (SIN_bound ((Ei i omega false - Ei j omega false) * t)).
  split; apply Rabs_le; lra.
Qed.

Lemma Cqq_std_sumj_dominated (t omega : R) (i : Z) :
  Rabs (fst (Cqq_std_sumj t omega i)) <= fst (Cqq_std_sumj 0 omega i) /\
  Rabs (snd (Cqq_std_sumj t omega i)) <= fst (Cqq_std_sumj 0 omega i).
Proof.
  assert (Hgen : forall l z z0,
            (Rabs (fst z) <= fst z0 /\ Rabs (snd z) <= fst z0) ->
            let g := fun t' sumj j =>
              Cadd sumj (Cmul (Cmul (phase i j omega t') (RtoC (qij i j 1)))
                              (RtoC (qij j i 1))) in
            Rabs (fst (fold_left (g t) l z)) <= fst (fold_left (g 0) l z0) /\
            Rabs (snd (fold_left (g t) l z)) <= fst (fold_left (g 0) l z0)).
  { induction l as [|j l IH]; intros z z0 Hz; cbn zeta; [exact Hz|].
    cbn [fold_left]. apply IH. apply dominated_add; [exact Hz|].
    rewrite !Cmul_real_real.
    apply dominated_scale.
    - apply Rmult_le_pos; apply qij_nonneg.
    - apply phase_dominated.
    - rewrite phase_t0. reflexivity. }
  unfold Cqq_std_sumj. apply Hgen.
  unfold C0, RtoC. cbn [fst snd]. rewrite Rabs_R0. split; lra.
Qed.

(** X14. For every [i_max >= 0], every [omega >= 0] (so that no Boltzmann
    factor [exp(-beta Ei)] exceeds 1) and every time [t], the real and the
    imaginary part of the value [Cqq_std] computes at [t] are bounded in
    absolute value by its value at [t = 0]. *)
Theorem X14_Cqq_std_bounded_by_t0 (t omega : R) (i_max : Z) :
  (0 <= i_max)%Z -> 0 <= omega ->
  Rabs (fst (Cqq_std_at t omega i_max)) <= fst (Cqq_std_at 0 omega i_max) /\
  Rabs (snd (Cqq_std_at t omega i_max)) <= fst (Cqq_std_at 0 omega i_max).
Proof.
  intros Hi _.
  assert (Hrel :
    (Rabs (fst (fst (Cqq_std_loop t omega i_max))) <=
       fst (fst (Cqq_std_loop 0 omega i_max)) /\
     Rabs (snd (fst (Cqq_std_loop t omega i_max))) <=
       fst (fst (Cqq_std_loop 0 omega i_max))) /\
    snd (Cqq_std_loop t omega i_max) = snd (Cqq_std_loop 0 omega i_max)).
  { unfold Cqq_std_loop.
    apply (fold_left_rel
             (fun a b : complex * R =>
                (Rabs (fst (fst a)) <= fst (fst b) /\
                 Rabs (snd (fst a)) <= fst (fst b)) /\
                snd a = snd b)).
    - cbn [fst snd]. unfold C0, RtoC. cbn [fst snd]. rewrite Rabs_R0.
      repeat split; lra.
    - intros a b i [Hd Ez]. cbn [fst snd]. split; [|rewrite Ez; reflexivity].
      apply dominated_add; [exact Hd|].
      apply dominated_scale.
      + left. apply exp_pos.
      + apply Cqq_std_sumj_dominated.
      + apply (Cqq_std_sumj_t0 omega i). }
  destruct Hrel as [[H1 H2] Ez].
  destruct (Cqq_std_loop_t0 omega i_max Hi) as [[Him _] Hz].
  unfold Cqq_std_at, Cdiv, RtoC. cbn [fst snd]. rewrite Ez, Him.
  set (rz := snd (Cqq_std_loop 0 omega i_max)) in *.
  set (a := fst (fst (Cqq_std_loop t omega i_max))) in *.
  set (b := snd (fst (Cqq_std_loop t omega i_max))) in *.
  set (c := fst (fst (Cqq_std_loop 0 omega i_max))) in *.
  replace ((a * rz + b * 0) / (rz * rz + 0 * 0)) with (a * / rz)
    by (field; lra).
  replace ((b * rz - a * 0) / (rz * rz + 0 * 0)) with (b * / rz)
    by (field; lra).
  replace ((c * rz + 0 * 0) / (rz * rz + 0 * 0)) with (c * / rz)
    by (field; lra).
  assert (Hr : 0 < / rz) by (apply Rinv_0_lt_compat; exact Hz).
  rewrite !Rabs_mult, (Rabs_pos_eq (/ rz)) by lra.
  split; apply Rmult_le_compat_r; lra.
Qed.

Lemma X14_Cqq_std_bounded_by_t0_witness :
  (0 <= 2)%Z /\ 0 <= 3 /\
  Rabs (fst (Cqq_std_at 7 3 2)) <= fst (Cqq_std_at 0 3 2) /\
  Rabs (snd (Cqq_std_at 7 3 2)) <= fst (Cqq_std_at 0 3 2).
Proof.
  split; [lia|]. split; [lra|].
  exact (X14_Cqq_std_bounded_by_t0 7 3 2%Z ltac:(lia) ltac:(lra)).
Defined.

(** ** Only the two neighbours contribute (cell 17) *)

Lemma qij_product_default (i j : Z) :
  (0 <= i)%Z ->
  qij i j 1 * qij j i 1 =
  if (j =? i - 1)%Z then IZR i / 2
  else if (j =? i + 1)%Z then IZR (i + 1) / 2
  else 0.
Proof.
  intros Hi.
  assert (H1 : sqrt (1 / (2 * 1)) * sqrt (1 / (2 * 1)) = 1 / 2).
  { replace (1 / (2 * 1)) with (1 / 2) by field. apply sqrt_sqrt. lra. }
  rewrite <- (qij_sym i j 1), qij_R.
  destruct (Z.eqb_spec j (i - 1)) as [E1|N1].
  - destruct (Z.eqb_spec i (j - 1)) as [E|_]; [lia|].
    destruct (Z.eqb_spec i (j + 1)) as [_|N]; [|lia].
    replace (j + 1)%Z with i by lia.
    transitivity (sqrt (1 / (2 * 1)) * sqrt (1 / (2 * 1)) *
                  (sqrt (IZR i) * sqrt (IZR i))); [ring|].
    rewrite H1, sqrt_sqrt by (apply IZR_le; lia). field.
  - destruct (Z.eqb_spec j (i + 1)) as [E2|N2].
    + destruct (Z.eqb_spec i (j - 1)) as [_|N]; [|lia].
      rewrite E2.
      transitivity (sqrt (1 / (2 * 1)) * sqrt (1 / (2 * 1)) *
                    (sqrt (IZR (i + 1)) * sqrt (IZR (i + 1)))); [ring|].
      rewrite H1, sqrt_sqrt by (apply IZR_le; lia). field.
    + destruct (Z.eqb_spec i (j - 1)) as [E|_]; [lia|].
      destruct (Z.eqb_spec i (j + 1)) as [E|_]; [lia|]. ring.
Qed.

Lemma Cqq_std_fold_zero (t omega : R) (i : Z) (l : list Z) (acc : complex) :
  (forall j, In j l -> qij i j 1 * qij j i 1 = 0) ->
  fold_left
    (fun sumj j =>
       Cadd sumj (Cmul (Cmul (phase i j omega t) (RtoC (qij i j 1)))
                       (RtoC (qij j i 1))))
    l acc = acc.
Proof.
  revert acc. induction l as [|j l IH]; intros acc Hz; [reflexivity|].
  cbn [fold_left]. rewrite IH by (intros j' Hj'; apply Hz; right; exact Hj').
  rewrite Cmul_real_real, (Hz j (or_introl eq_refl)).
  destruct acc as [a b]. unfold Cadd, Cmul, RtoC. cbn [fst snd].
  f_equal; ring.
Qed.

(** X15. For every [i >= 0] the inner loop of [Cqq_std], which runs [j]
    over [0 .. i + 1], adds up to just the two neighbour terms: the phase
    for [j = i - 1] times [i / 2] plus the phase for [j = i + 1] times
    [(i + 1) / 2]; every other [j] contributes nothing. *)
Theorem X15_Cqq_std_sumj_neighbours (t omega : R) (i : Z) :
  (0 <= i)%Z ->
  Cqq_std_sumj t omega i =
  Cadd (Cmul (phase i (i - 1) omega t) (RtoC (IZR i / 2)))
       (Cmul (phase i (i + 1) omega t) (RtoC (IZR (i + 1) / 2))).
Proof.
  intros Hi. unfold Cqq_std_sumj.
  assert (Hsplit : range2 0 (i + 2) =
                   range2 0 (i - 1) ++ range2 (Z.max 0 (i - 1)) (i + 2)).
  { destruct (Z.eq_dec i 0) as [->|Hne].
    - rewrite (range2_nil 0 (0 - 1)) by lia. reflexivity.
    - rewrite Z.max_r by lia. apply range2_app. lia. }
  rewrite Hsplit, fold_left_app.
  rewrite (Cqq_std_fold_zero t omega i (range2 0 (i - 1)) C0).
  2:{ intros j Hj. apply range2_In in Hj.
      rewrite (qij_product_default i j Hi).
      destruct (Z.eqb_spec j (i - 1)); [lia|].
      destruct (Z.eqb_spec j (i + 1)); [lia|]. reflexivity. }
  destruct (Z.eq_dec i 0) as [->|Hne].
  - change (range2 (Z.max 0 (0 - 1)) (0 + 2)) with [0%Z; 1%Z].
    cbn [fold_left]. rewrite !Cmul_real_real.
    rewrite !(qij_product_default 0) by lia.
    change (0 =? 0 - 1)%Z with false. change (0 =? 0 + 1)%Z with false.
    change (1 =? 0 - 1)%Z with false. change (1 =? 0 + 1)%Z with true.
    cbn iota. change (0 + 1)%Z with 1%Z.
    unfold C0, Cadd, Cmul, RtoC. cbn [fst snd]. f_equal; field.
  - rewrite Z.max_r by lia.
    rewrite (range2_cons (i - 1) (i + 2)) by lia.
    rewrite (range2_cons (i - 1 + 1) (i + 2)) by lia.
    rewrite (range2_cons (i - 1 + 1 + 1) (i + 2)) by lia.
    rewrite (range2_nil (i - 1 + 1 + 1 + 1) (i + 2)) by lia.
    replace (i - 1 + 1)%Z with i by lia.
    cbn [fold_left]. rewrite !Cmul_real_real.
    rewrite !(qij_product_default i) by lia.
    rewrite Z.eqb_refl.
    destruct (Z.eqb_spec i (i - 1)); [lia|].
    destruct (Z.eqb_spec i (i + 1)); [lia|].
    destruct (Z.eqb_spec (i + 1) (i - 1)); [lia|].
    rewrite Z.eqb_refl.
    unfold C0, Cadd, Cmul, RtoC. cbn [fst snd]. f_equal; field.
Qed.

Lemma X15_Cqq_std_sumj_neighbours_witness :
  (0 <= 3)%Z /\
  Cqq_std_sumj 5 2 3 =
  Cadd (Cmul (phase 3 (3 - 1) 2 5) (RtoC (3 / 2)))
       (Cmul (phase 3 (3 + 1) 2 5) (RtoC (IZR (3 + 1) / 2))).
Proof.
  split; [lia|].
  exact (X15_Cqq_std_sumj_neighbours 5 2 3%Z ltac:(lia)).
Defined.

(** ** Every outcome of the Kubo evaluator (cell 27) *)

(** X16. What [Cqq_kubo] does for every grid size and truncation order not
    covered above: a negative [lgrid] is rejected by [np.linspace] with
    [ValueError]; a grid of 0 or 1 points raises [IndexError] as soon as the
    loop runs ([i_max >= 0]); with a negative [i_max] the loop never runs
    and even such a grid returns [t * 0]; on a grid of at least two points
    and [i_max >= 1] a complex array with the shape of [t] is returned. *)
Theorem X16_Cqq_kubo_outcomes (t : ndarray R) (omega : R) (i_max lgrid : Z) :
  ((lgrid < 0)%Z -> Cqq_kubo t omega i_max lgrid = Raise ValueError) /\
  ((0 <= lgrid <= 1)%Z -> (0 <= i_max)%Z ->
   Cqq_kubo t omega i_max lgrid = Raise IndexError) /\
  ((0 <= lgrid)%Z -> (i_max < 0)%Z ->
   exists v, Cqq_kubo t omega i_max lgrid = Ok v /\ zeros_like t v) /\
  ((2 <= lgrid)%Z -> (1 <= i_max)%Z ->
   exists a,
     Cqq_kubo t omega i_max lgrid = Ok (ComplexArr a) /\
     shape a = shape t /\ length (data a) = length (data t)).
Proof.
  split; [|split; [|split]].
  - intros Hl. unfold Cqq_kubo, linspace.
    destruct (Z.ltb_spec lgrid 0) as [_|Hn]; [reflexivity|lia].
  - intros Hl Hi. unfold Cqq_kubo.
    destruct (linspace_length 0 beta lgrid ltac:(lia)) as (lg & Hlg & Hlen).
    rewrite Hlg. cbn [bind].
    rewrite (Cqq_kubo_loop_short lg i_max ltac:(lia) Hi). reflexivity.
  - intros Hl Hi. unfold Cqq_kubo.
    destruct (linspace_length 0 beta lgrid Hl) as (lg & Hlg & _).
    rewrite Hlg. cbn [bind]. unfold Cqq_kubo_loop, range.
    rewrite (range2_nil 0 (i_max + 1)) by lia. cbn [fold_left bind].
    eexists. split; [reflexivity|].
    destruct (Z.gtb_spec i_max 0) as [Hp|_]; [lia|].
    apply zeros_like_times_0.
  - intros Hl Hi. unfold Cqq_kubo.
    destruct (linspace_length 0 beta lgrid ltac:(lia)) as (lg & Hlg & Hlen).
    rewrite Hlg. cbn [bind].
    destruct (Cqq_kubo_loop_ok lg i_max ltac:(lia)) as (st & Hst).
    rewrite Hst. cbn [bind].
    destruct (Z.gtb_spec i_max 0) as [_|Hn]; [|lia].
    eexists. split; [reflexivity|]. unfold nd_map. cbn [shape data].
    split; [reflexivity|apply length_map].
Qed.

Lemma X16_Cqq_kubo_outcomes_witness :
  ((- 3 < 0)%Z /\
   Cqq_kubo (scalar 0) 1 5 (- 3) = Raise ValueError) /\
  ((0 <= 0 <= 1)%Z /\ (0 <= 5)%Z /\
   Cqq_kubo (scalar 0) 1 5 0 = Raise IndexError) /\
  ((0 <= 1)%Z /\ (- 1 < 0)%Z /\
   exists v, Cqq_kubo (scalar 7) 1 (- 1) 1 = Ok v /\
             zeros_like (scalar 7) v) /\
  ((2 <= 1000)%Z /\ (1 <= 100)%Z /\
   exists a,
     Cqq_kubo (mk_nd [2%nat] [0; 1]) 1 100 1000 = Ok (ComplexArr a) /\
     shape a = shape (mk_nd [2%nat] [0; 1]) /\
     length (data a) = length (data (mk_nd [2%nat] [0; 1]))).
Proof.
  split; [split; [lia|]|split; [split; [lia|split; [lia|]]|split]].
  - exact (proj1 (X16_Cqq_kubo_outcomes (scalar 0) 1 5 (- 3)) ltac:(lia)).
  - exact (proj1 (proj2 (X16_Cqq_kubo_outcomes (scalar 0) 1 5 0))
             ltac:(lia) ltac:(lia)).
  - split; [lia|]. split; [lia|].
    exact (proj1 (proj2 (proj2 (X16_Cqq_kubo_outcomes (scalar 7) 1 (- 1) 1)))
             ltac:(lia) ltac:(lia)).
  - split; [lia|]. split; [lia|].
    exact (proj2 (proj2 (proj2 (X16_Cqq_kubo_outcomes
                                  (mk_nd [2%nat] [0; 1]) 1 100 1000)))
             ltac:(lia) ltac:(lia)).
Defined.

(** ** The Kubo evaluator at [t = 0] (cell 27) *)

Lemma fold_Rplus_nonneg (l : list R) (s0 : R) :
  0 <= s0 -> Forall (fun x => 0 <= x) l -> 0 <= fold_left Rplus l s0.
Proof.
  revert s0. induction l as [|x l IH]; intros s0 Hs Hl; [exact Hs|].
  inversion Hl as [|? ? Hx Hl']; subst. cbn [fold_left].
  apply IH; [lra|exact Hl'].
Qed.

(** On a grid of at least two points every quadrature weight [lterm] is
    computed and is non-negative. *)
Lemma Cqq_kubo_lterm_nonneg (lgrid : Z) (lg : list R) (i j : Z) :
  (2 <= lgrid)%Z -> linspace 0 beta lgrid = Ok lg ->
  exists x, Cqq_kubo_lterm lg i j = Ok x /\ 0 <= x.
Proof.
  intros Hl. unfold linspace.
  destruct (Z.ltb_spec lgrid 0) as [Hn|_]; [lia|].
  unfold range. rewrite (range2_cons 0 lgrid) by lia.
  rewrite (range2_cons (0 + 1) lgrid) by lia. cbn [map].
  intros [= <-]. unfold Cqq_kubo_lterm, index. cbn [nth_error bind].
  eexists. split; [reflexivity|].
  assert (Hn : 0 < IZR (lgrid - 1)) by (apply IZR_lt; lia).
  assert (Hb : (beta : R) = 1) by reflexivity.
  assert (Hstep : 0 <= (beta - 0) / IZR (lgrid - 1)).
  { rewrite Hb. apply Rmult_le_pos; [lra|].
    left. apply Rinv_0_lt_compat. exact Hn. }
  change (0 + 1)%Z with 1%Z.
  set (step := (beta - 0) / IZR (lgrid - 1)) in *.
  match goal with
  | |- 0 <= np_sum ?l * _ / _ =>
      assert (Hs : 0 <= np_sum l)
  end.
  { unfold np_sum. apply fold_Rplus_nonneg; [lra|].
    apply Forall_forall. intros y Hy. apply in_map_iff in Hy.
    destruct Hy as (u & <- & _). left. apply exp_pos. }
  unfold Rdiv at 1. apply Rmult_le_pos.
  - apply Rmult_le_pos; [exact Hs|].
    pose proof (Rinv_0_lt_compat _ Hn) as Hi. unfold Rdiv. nra.
  - rewrite Hb, Rinv_1. lra.
Qed.

Lemma Cqq_kubo_inner_t0 (lgrid : Z) (lg : list R) (i : Z)
  (rcqq : R -> complex) :
  (2 <= lgrid)%Z -> linspace 0 beta lgrid = Ok lg ->
  real_nonneg (rcqq 0) ->
  exists r, Cqq_kubo_inner lg i rcqq = Ok r /\ real_nonneg (r 0).
Proof.
  intros Hl Hlg. unfold Cqq_kubo_inner.
  generalize (range (i + 2)). intros l. revert rcqq.
  induction l as [|j l IH]; intros rcqq Hr; cbn [fold_left].
  - eexists. split; [reflexivity|exact Hr].
  - destruct (Cqq_kubo_lterm_nonneg lgrid lg i j Hl Hlg) as (x & Hx & Hx0).
    cbn [bind]. rewrite Hx. cbn [bind]. apply IH.
    apply real_nonneg_add; [exact Hr|].
    rewrite phase_t0. change (1, 0) with (RtoC 1).
    pose proof (exp_pos (- beta * Ei i 1 false)) as He.
    repeat apply real_nonneg_scale; try apply qij_nonneg; try lra.
    unfold real_nonneg, RtoC. cbn [fst snd]. split; [reflexivity|nra].
Qed.

Lemma Cqq_kubo_loop_t0 (lgrid : Z) (lg : list R) (l : list Z)
  (st : (R -> complex) * R) :
  (2 <= lgrid)%Z -> linspace 0 beta lgrid = Ok lg ->
  real_nonneg (fst st 0) ->
  exists st',
    fold_left
      (fun acc i =>
         (st <- acc ;;
          rcqq <- Cqq_kubo_inner lg i (fst st) ;;
          Ok (rcqq, snd st + exp (- beta * Ei i 1 false)))%py)
      l (Ok st) = Ok st' /\
    real_nonneg (fst st' 0) /\ snd st <= snd st' /\
    (l <> [] -> snd st < snd st').
Proof.
  intros Hl Hlg. revert st. induction l as [|i l IH]; intros st Hr.
  - exists st. split; [reflexivity|]. split; [exact Hr|]. split; [lra|].
    intros Hne. contradiction.
  - cbn [fold_left bind].
    destruct (Cqq_kubo_inner_t0 lgrid lg i (fst st) Hl Hlg Hr)
      as (r & Hin & Hr').
    rewrite Hin. cbn [bind].
    destruct (IH (r, snd st + exp (- beta * Ei i 1 false)) Hr')
      as (st' & Hst' & Hn & Hle & _).
    exists st'. split; [exact Hst'|]. split; [exact Hn|].
    cbn [snd] in Hle. pose proof (exp_pos (- beta * Ei i 1 false)).
    split; [lra|intros _; lra].
Qed.

(** X17. For a truncation order [1 <= i_max <= 600] and a grid of
    [2 <= lgrid <= 1000000] points (the defaults 100 and 1000 included;
    in this range every [np.exp] of the binary64 run stays finite), and for
    every [omega], [Cqq_kubo] at [t = 0] returns a complex number with zero
    imaginary part and non-negative real part. Proved in exact
    arithmetic. *)
Theorem X17_Cqq_kubo_t0_real_nonneg (omega : R) (i_max lgrid : Z) :
  (1 <= i_max <= 600)%Z -> (2 <= lgrid <= 1000000)%Z ->
  exists z : complex,
    Cqq_kubo (scalar 0) omega i_max lgrid = Ok (ComplexArr (scalar z)) /\
    snd z = 0 /\ 0 <= fst z.
Proof.
  intros [Hi _] [Hl _]. unfold Cqq_kubo.
  destruct (linspace_length 0 beta lgrid ltac:(lia)) as (lg & Hlg & _).
  rewrite Hlg. cbn [bind]. unfold Cqq_kubo_loop.
  destruct (Cqq_kubo_loop_t0 lgrid lg (range (i_max + 1))
              (fun _ => C0, 0) Hl Hlg real_nonneg_C0)
    as (st & Hst & [Him Hre] & _ & Hpos).
  rewrite Hst. cbn [bind].
  destruct (Z.gtb_spec i_max 0) as [_|Hn]; [|lia].
  eexists. split; [reflexivity|].
  assert (Hz : 0 < snd st).
  { cbn [snd] in Hpos. apply Hpos.
    destruct (range_cons (i_max + 1) ltac:(lia)) as (l & ->). discriminate. }
  unfold Cdiv, RtoC. cbn [fst snd]. rewrite Him.
  set (rc := fst (fst st 0)) in *. set (rz := snd st) in *.
  split.
  - field. lra.
  - replace ((rc * rz + 0 * 0) / (rz * rz + 0 * 0)) with (rc / rz)
      by (field; lra).
    apply Rmult_le_pos; [exact Hre|]. left. apply Rinv_0_lt_compat. exact Hz.
Qed.

Lemma X17_Cqq_kubo_t0_real_nonneg_witness :
  (1 <= 100 <= 600)%Z /\ (2 <= 1000 <= 1000000)%Z /\
  exists z : complex,
    Cqq_kubo (scalar 0) 1 100 1000 = Ok (ComplexArr (scalar z)) /\
    snd z = 0 /\ 0 <= fst z.
Proof.
  split; [lia|]. split; [lia|].
  exact (X17_Cqq_kubo_t0_real_nonneg 1 100%Z 1000%Z ltac:(lia) ltac:(lia)).
Defined.

(** ** Energies with and without the zero-point offset (cell 13) *)

(** X18. With [return_zero=True] every level of [Ei] is shifted by the
    same [hbar * omega / 2], so the level differences that enter the phase
    factors are [(i - j) * hbar * omega] in both modes; [Ei(2, omega=2)] is
    4, exactly and in binary64. *)
Theorem X18_Ei_zero_point :
  (forall (i : Z) (omega : R),
     Ei i omega true = Ei i omega false + hbar * omega / 2) /\
  (forall (i j : Z) (omega : R) (rz : bool),
     Ei i omega rz - Ei j omega rz = IZR (i - j) * hbar * omega) /\
  Ei 2 2 false = 4 /\
  Ei 2 2%float false = 4%float /\
  Ei 2 2%float true = 5%float.
Proof.
  split; [|split; [|split; [|split]]].
  - intros i omega. unfold Ei, hbar. cbn. field.
  - intros i j omega rz. rewrite minus_IZR. unfold Ei, hbar.
    destruct rz; cbn; field.
  - unfold Ei, hbar. cbn. ring.
  - vm_compute. reflexivity.
  - vm_compute. reflexivity.
Qed.

(** ** The standard correlation function is periodic (cell 17) *)

Lemma phase_neighbour_period (i j : Z) (omega t : R) :
  0 < omega -> j = (i - 1)%Z \/ j = (i + 1)%Z ->
  phase i j omega (t + 2 * PI / omega) = phase i j omega t.
Proof.
  intros Ho Hj. rewrite !phase_polar, !Ei_R.
  destruct Hj as [-> | ->].
  - rewrite minus_IZR.
    replace ((IZR i * omega - (IZR i - 1) * omega) * (t + 2 * PI / omega))
      with (omega * t + 2 * INR 1 * PI) by (cbn [INR]; field; lra).
    replace ((IZR i * omega - (IZR i - 1) * omega) * t) with (omega * t)
      by ring.
    rewrite cos_period, sin_period. reflexivity.
  - rewrite plus_IZR.
    replace ((IZR i * omega - (IZR i + 1) * omega) * (t + 2 * PI / omega))
      with (- (omega * t + 2 * INR 1 * PI)) by (cbn [INR]; field; lra).
    replace ((IZR i * omega - (IZR i + 1) * omega) * t) with (- (omega * t))
      by ring.
    rewrite !cos_neg, !sin_neg, cos_period, sin_period. reflexivity.
Qed.

Lemma fold_left_ext_in {A B : Type} (g g' : A -> B -> A) (l : list B)
  (a : A) :
  (forall a b, In b l -> g a b = g' a b) ->
  fold_left g l a = fold_left g' l a.
Proof.
  revert a. induction l as [|b l IH]; intros a Hg; [reflexivity|].
  cbn [fold_left]. rewrite (Hg a b (or_introl eq_refl)).
  apply IH. intros a' b' Hb'. apply Hg. right. exact Hb'.
Qed.

Lemma Cqq_std_sumj_period (t omega : R) (i j : Z) :
  0 < omega ->
  Cmul (Cmul (phase i j omega (t + 2 * PI / omega)) (RtoC (qij i j 1)))
       (RtoC (qij j i 1)) =
  Cmul (Cmul (phase i j omega t) (RtoC (qij i j 1))) (RtoC (qij j i 1)).
Proof.
  intros Ho.
  destruct (Z.eq_dec j (i - 1)) as [E1|N1];
    [rewrite phase_neighbour_period by tauto; reflexivity|].
  destruct (Z.eq_dec j (i + 1)) as [E2|N2];
    [rewrite phase_neighbour_period by tauto; reflexivity|].
  assert (Hq : qij i j 1 = 0).
  { rewrite qij_R. destruct (Z.eqb_spec i (j - 1)); [lia|].
    destruct (Z.eqb_spec i (j + 1)); [lia|]. reflexivity. }
  rewrite Hq. unfold Cmul, RtoC. cbn [fst snd]. f_equal; ring.
Qed.

(** X19. For every [omega > 0] the value [Cqq_std] computes is periodic in
    time with period [2 pi / omega], whatever the truncation order: the
    only phases with a non-zero weight are those of the two neighbouring
    levels, one quantum [hbar * omega] apart. *)
Theorem X19_Cqq_std_periodic (t omega : R) (i_max : Z) :
  0 < omega ->
  Cqq_std_at (t + 2 * PI / omega) omega i_max = Cqq_std_at t omega i_max.
Proof.
  intros Ho. unfold Cqq_std_at.
  assert (E : Cqq_std_loop (t + 2 * PI / omega) omega i_max =
              Cqq_std_loop t omega i_max).
  { unfold Cqq_std_loop. apply fold_left_ext_in. intros acc i _.
    f_equal. f_equal. f_equal. unfold Cqq_std_sumj.
    apply fold_left_ext_in. intros z j _. f_equal.
    apply Cqq_std_sumj_period. exact Ho. }
  rewrite E. reflexivity.
Qed.

Lemma X19_Cqq_std_periodic_witness :
  0 < 2 /\ Cqq_std_at (1 + 2 * PI / 2) 2 5 = Cqq_std_at 1 2 5.
Proof.
  split; [lra|].
  exact (X19_Cqq_std_periodic 1 2 5%Z ltac:(lra)).
Defined.

(** ** Time reversal of the Kubo evaluator (cell 27) *)

Lemma Cconj_real_mul (c : R) (z : complex) :
  Cconj (Cmul (RtoC c) z) = Cmul (RtoC c) (Cconj z).
Proof. unfold Cconj, Cmul, RtoC. cbn [fst snd]. f_equal; ring. Qed.

Lemma Cqq_kubo_inner_sym (lg : list R) (i : Z) (l : list Z)
  (rcqq r : R -> complex) :
  (forall tk, rcqq (- tk) = Cconj (rcqq tk)) ->
  fold_left
    (fun acc j =>
       (rcqq <- acc ;;
        lterm <- Cqq_kubo_lterm lg i j ;;
        Ok (fun t =>
              Cadd (rcqq t)
                   (Cmul (Cmul (Cmul (RtoC (lterm *
                                            exp (- beta * Ei i 1 false)))
                                     (phase i j 1 t))
                               (RtoC (qij i j 1)))
                         (RtoC (qij j i 1)))))%py)
    l (Ok rcqq) = Ok r ->
  forall tk, r (- tk) = Cconj (r tk).
Proof.
  revert rcqq. induction l as [|j l IH]; intros rcqq Hs; cbn [fold_left].
  - intros [= <-]. exact Hs.
  - cbn [bind]. destruct (Cqq_kubo_lterm lg i j) as [x|e]; cbn [bind].
    + apply IH. intros tk.
      rewrite Cconj_add, !Cconj_scale, Cconj_real_mul, phase_neg, Hs.
      reflexivity.
    + rewrite fold_left_raise by reflexivity. discriminate.
Qed.

Lemma Cqq_kubo_loop_sym (lg : list R) (l : list Z)
  (st st' : (R -> complex) * R) :
  (forall tk, fst st (- tk) = Cconj (fst st tk)) ->
  fold_left
    (fun acc i =>
       (st <- acc ;;
        rcqq <- Cqq_kubo_inner lg i (fst st) ;;
        Ok (rcqq, snd st + exp (- beta * Ei i 1 false)))%py)
    l (Ok st) = Ok st' ->
  forall tk, fst st' (- tk) = Cconj (fst st' tk).
Proof.
  revert st. induction l as [|i l IH]; intros st Hs; cbn [fold_left].
  - intros [= <-]. exact Hs.
  - cbn [bind].
    destruct (Cqq_kubo_inner lg i (fst st)) as [r|e] eqn:Er; cbn [bind].
    + apply IH. cbn [fst].
      exact (Cqq_kubo_inner_sym lg i (range (i + 2)) (fst st) r Hs Er).
    + rewrite fold_left_raise by reflexivity. discriminate.
Qed.

(** X20. For a truncation order [1 <= i_max <= 600] and a grid of
    [2 <= lgrid <= 1000000] points (the defaults included; in this range
    every [np.exp] of the binary64 run stays finite), [Cqq_kubo] returns a
    complex array, and reversing the sign of every time turns it into its
    complex conjugate, entry by entry: real part even in [t], imaginary
    part odd. Proved in exact arithmetic. *)
Theorem X20_Cqq_kubo_time_reversal (t : ndarray R) (omega : R)
  (i_max lgrid : Z) :
  (1 <= i_max <= 600)%Z -> (2 <= lgrid <= 1000000)%Z ->
  exists a,
    Cqq_kubo t omega i_max lgrid = Ok (ComplexArr a) /\
    Cqq_kubo (nd_map Ropp t) omega i_max lgrid =
    Ok (ComplexArr (nd_map Cconj a)).
Proof.
  intros [Hi _] [Hl _]. unfold Cqq_kubo.
  destruct (linspace_length 0 beta lgrid ltac:(lia)) as (lg & Hlg & Hlen).
  rewrite Hlg. cbn [bind].
  destruct (Cqq_kubo_loop_ok lg i_max ltac:(lia)) as (st & Hst).
  rewrite Hst. cbn [bind].
  destruct (Z.gtb_spec i_max 0) as [_|Hn]; [|lia].
  eexists. split; [reflexivity|]. f_equal. f_equal.
  unfold nd_map. cbn [shape data]. f_equal.
  rewrite !map_map. apply map_ext. intros tk.
  rewrite Cconj_div_real. f_equal.
  apply (Cqq_kubo_loop_sym lg (range (i_max + 1)) (fun _ => C0, 0) st).
  - intros tk'. cbn [fst]. unfold Cconj, C0, RtoC. cbn [fst snd].
    f_equal. ring.
  - exact Hst.
Qed.

Lemma X20_Cqq_kubo_time_reversal_witness :
  (1 <= 100 <= 600)%Z /\ (2 <= 1000 <= 1000000)%Z /\
  exists a,
    Cqq_kubo (mk_nd [2%nat] [1; 5]) 1 100 1000 = Ok (ComplexArr a) /\
    Cqq_kubo (nd_map Ropp (mk_nd [2%nat] [1; 5])) 1 100 1000 =
    Ok (ComplexArr (nd_map Cconj a)).
Proof.
  split; [lia|]. split; [lia|].
  exact (X20_Cqq_kubo_time_reversal (mk_nd [2%nat] [1; 5]) 1 100%Z 1000%Z
           ltac:(lia) ltac:(lia)).
Defined.
